(** * mingo: the [$bucketAuto] pipeline stage

    A shallow embedding of [src/operators/pipeline/bucketAuto.ts] and of the
    parts of the engine it calls, with the properties of the stage stated and
    proved over the embedding.

    Conventions of the embedding:
    - JavaScript numbers are integers ([Z]).  The embedding is that of the
      code for the safe integers, those below [2^53] in absolute value, which
      JavaScript prints in decimal digits; numbers with a fraction, larger
      numbers, [NaN] and the infinities are not covered, and the theorems
      say so in their hypotheses ([plain_keys], [safe_count]).
    - The [buckets] field of a stage spec is absent, [null], a boolean or an
      integer; strings, numbers with a fraction and objects are not covered.
    - A JavaScript array is a [list], and so is an iterator: the sequence it
      yields.  A plain object used as a dictionary is a [gmap string _] of its
      own properties, indexed by the property string of the key; a property
      it has not is looked up in [Object.prototype], see [inherited].
    - A thrown exception is the [Throw] case of [Result]. *)

From Stdlib Require Import ZArith String Ascii List Lia.
From stdpp Require Import base option list sorting gmap strings pretty.

Local Open Scope Z_scope.

(** ** Values *)

(** The values a key expression can evaluate to.  [VUndefined] is the
    [Missing] sentinel of a lookup that found no field. *)
Inductive Value : Type :=
  | VUndefined
  | VNull
  | VBool (b : bool)
  | VNum (n : Z)
  | VStr (s : string).

#[global] Instance Value_eq_dec : EqDecision Value.
Proof. solve_decision. Defined.

(** [isNil] of [util]: true of [null] and [undefined]. *)
Definition isNil (v : Value) : bool :=
  match v with
  | VUndefined | VNull => true
  | _ => false
  end.

(** The property string under which a value indexes a plain object
    ([grouped[key]]): JavaScript's [ToPropertyKey], i.e. [String(key)].  A
    number is printed in decimal digits, which is what JavaScript prints for
    a safe integer (see [safe_number]). *)
Definition toPropertyKey (v : Value) : string :=
  match v with
  | VUndefined => "undefined"
  | VNull => "null"
  | VBool true => "true"
  | VBool false => "false"
  | VNum n => pretty n
  | VStr s => s
  end.

(** The numbers [toPropertyKey] prints as JavaScript does: the safe integers.
    From [2^53] on JavaScript prints the shortest digits that identify the
    number, and an exponent from [1e21] on. *)
Definition safe_number (v : Value) : bool :=
  match v with
  | VNum n => bool_decide (Z.abs n < 2 ^ 53)
  | _ => true
  end.

(** The properties every plain object inherits from [Object.prototype]: the
    standard ones and the legacy accessors.  Each of them reads as a function
    or as an object: a value that is truthy and has no [push]. *)
Definition Object_prototype_names : list string :=
  ["constructor"; "hasOwnProperty"; "isPrototypeOf"; "propertyIsEnumerable";
   "toLocaleString"; "toString"; "valueOf"; "__proto__";
   "__defineGetter__"; "__defineSetter__"; "__lookupGetter__";
   "__lookupSetter__"]%string.

Definition inherited (s : string) : bool :=
  existsb (String.eqb s) Object_prototype_names.

(** The keys the embedding covers and the sort callback accepts: nil, or a
    value whose property string names no inherited property and that, when it
    is a number, is a safe integer. *)
Definition plain_key (v : Value) : bool :=
  isNil v || (negb (inherited (toPropertyKey v)) && safe_number v).

(** Modelled from the spec: the default comparator [compare] of [util] is not
    part of the sources at hand.  The spec orders values by a fixed total
    order on type tags (null and Missing lowest, then numbers, then strings,
    then booleans), numbers by numeric value, strings by the collation, which
    is case-sensitive byte order unless the options name another. *)
Definition type_rank (v : Value) : Z :=
  match v with
  | VUndefined | VNull => 0
  | VNum _ => 1
  | VStr _ => 2
  | VBool _ => 3
  end.

Definition compare_with (collate : string -> string -> comparison) (a b : Value)
    : comparison :=
  match a, b with
  | VNum x, VNum y => Z.compare x y
  | VStr x, VStr y => collate x y
  | VBool x, VBool y => Bool.compare x y
  | _, _ => Z.compare (type_rank a) (type_rank b)
  end.

Definition compare : Value -> Value -> comparison := compare_with String.compare.

(** ** Results of fallible code *)

Inductive Error : Type :=
  | AssertionError (message : string)
  | TypeError.

Inductive Result (A : Type) : Type :=
  | Ok (a : A)
  | Throw (e : Error).
Arguments Ok {A} a.
Arguments Throw {A} e.

#[global] Instance Result_bind : MBind Result := λ A B f m,
  match m with
  | Ok a => f a
  | Throw e => Throw e
  end.

(** [assert] of [util]: throws an error with the message unless the condition
    holds. *)
Definition assert (condition : bool) (message : string) : Result unit :=
  if condition then Ok tt else Throw (AssertionError message).

(** ** Stable sorting *)

Section StableSort.
Context {A : Type} (cmp : A -> A -> comparison).

(** [x] goes in front of the first element that is not below it, hence in
    front of every element it compares equal to. *)
Fixpoint insert_sorted (x : A) (l : list A) : list A :=
  match l with
  | [] => [x]
  | y :: l' =>
      match cmp x y with
      | Gt => y :: insert_sorted x l'
      | _ => x :: l
      end
  end.

Definition stable_sort (l : list A) : list A := foldr insert_sorted [] l.
End StableSort.

(** Modelled from the spec: [sortBy] of [util] is not part of the sources at
    hand.  It sorts a collection on the key a callback computes: the callback
    runs once on every element, in input order; elements whose key is nil go
    first, in input order; the others follow in ascending key order, elements
    with equal keys in input order.  An empty collection is returned as it
    is. *)
Definition sortBy {A : Type} (collection : list A) (fn : A -> Value)
    (cmp : Value -> Value -> comparison) : list A :=
  filter (λ o, isNil (fn o)) collection ++
  stable_sort (λ x y, cmp (fn x) (fn y)) (filter (λ o, ¬ isNil (fn o)) collection).

(** ** The stage spec *)

(** The [buckets] field of the stage spec, for the values the embedding
    covers: absent, null, a boolean or an integer.  The code takes any value
    ([expr: any]); strings, numbers with a fraction, [NaN] and objects are
    outside the embedding, and nothing is stated about them. *)
Inductive BucketsField : Type :=
  | BAbsent
  | BNull
  | BBool (b : bool)
  | BNum (n : Z).

(** JavaScript's [ToNumber]; [None] is [NaN]. *)
Definition ToNumber (b : BucketsField) : option Z :=
  match b with
  | BAbsent => None
  | BNull => Some 0
  | BBool true => Some 1
  | BBool false => Some 0
  | BNum n => Some n
  end.

(** JavaScript's [String(b)], as used by ["..." + bucketCount]; an integer
    is printed in decimal digits, as JavaScript prints a safe integer (see
    [safe_count]). *)
Definition ToString (b : BucketsField) : string :=
  match b with
  | BAbsent => "undefined"
  | BNull => "null"
  | BBool true => "true"
  | BBool false => "false"
  | BNum n => pretty n
  end.


(** [bucketCount > 0]: both sides are converted to numbers; any comparison
    with [NaN] is false. *)
Definition gt_zero (b : BucketsField) : bool :=
  match ToNumber b with
  | Some n => bool_decide (0 < n)
  | None => false
  end.

(** [Math.round (a / b)] for integers [a >= 0] and [b > 0]: the quotient
    rounded to the nearest integer, a half rounded up. *)
Definition Math_round_div (a b : Z) : Z := (2 * a + b) / (2 * b).

(** The [_id] of a bucket.  [Object.create({min: 0, max: 0})] makes an object
    with no own property; [min] and [max] become own properties when they are
    assigned, and read as the prototype's [0] until then. *)
Record Boundaries : Type := mkBoundaries {
  own_min : option Value;
  own_max : option Value
}.

Definition get_min (b : Boundaries) : Value := default (VNum 0) (own_min b).
Definition get_max (b : Boundaries) : Value := default (VNum 0) (own_max b).

Section BucketAuto.
(** Documents, key expressions and the expression evaluator are those of
    the engine; [computeValue o e] is the value of [e] on [o]. *)
Context {Doc Expr : Type} (computeValue : Doc -> Expr -> Value).

(** One emitted bucket: its [_id] and the [bucketItems] its output
    accumulators were computed over. *)
Record Bucket : Type := mkBucket {
  _id : Boundaries;
  bucketItems : list Doc
}.

(** The default output [{count: {$sum: 1}}] counts the bucket's items. *)
Definition count (b : Bucket) : Z := Z.of_nat (length (bucketItems b)).

Record BucketAutoSpec : Type := mkSpec {
  groupBy : Expr;
  buckets : BucketsField
}.

Definition set_max (v : Value) (b : Bucket) : Bucket :=
  mkBucket (mkBoundaries (own_min (_id b)) (Some v)) (bucketItems b).

(** [if (result.length > 0) result[result.length - 1][ID_KEY].max = v]. *)
Definition set_last_max (v : Value) (result : list Bucket) : list Bucket :=
  match last result with
  | Some lastBucket => <[pred (length result) := set_max v lastBucket]> result
  | None => result
  end.

Section Transform.
Variable groupByExpr : Expr.

(** [memoize(computeValue)] applied to the key expression. *)
Definition computeValueOptimized (o : Doc) : Value := computeValue o groupByExpr.

(** What the sort callback does with one document, [st] being [grouped]
    (its own properties) and [remaining]:
    [if (isNil(key)) remaining.push(o)
     else { grouped[key] || (grouped[key] = []); grouped[key].push(o) }].
    [grouped] is created as [{}], so [grouped[key]] is the own property when
    there is one and the property inherited from [Object.prototype]
    otherwise.  An inherited property is truthy, so nothing is stored, and it
    has no [push]: calling it is a [TypeError]. *)
Definition record_key (st : gmap string (list Doc) * list Doc) (o : Doc)
    : Result (gmap string (list Doc) * list Doc) :=
  let key := computeValueOptimized o in
  if isNil key then Ok (st.1, st.2 ++ [o])
  else
    match st.1 !! toPropertyKey key with
    | Some items => Ok (<[toPropertyKey key := items ++ [o]]> (st.1), st.2)
    | None =>
        if inherited (toPropertyKey key) then Throw TypeError
        else Ok (<[toPropertyKey key := [o]]> (st.1), st.2)
    end.

(** The callback run on the documents of a collection in turn; an exception
    ends the run. *)
Fixpoint record_keys (st : gmap string (list Doc) * list Doc) (coll : list Doc)
    : Result (gmap string (list Doc) * list Doc) :=
  match coll with
  | [] => Ok st
  | o :: coll' => st' ← record_key st o; record_keys st' coll'
  end.

(** What a run of the callback that throws nothing has stored. *)
Definition store_key (st : gmap string (list Doc) * list Doc) (o : Doc)
    : gmap string (list Doc) * list Doc :=
  let key := computeValueOptimized o in
  if isNil key then (st.1, st.2 ++ [o])
  else (<[toPropertyKey key := default [] (st.1 !! toPropertyKey key) ++ [o]]> (st.1), st.2).

Variables (grouped : gmap string (list Doc)) (remaining sorted : list Doc).

(** [isNil(key) ? remaining : grouped[key]]; reading [length] of an absent
    entry is a [TypeError].  The loops look up the keys of sorted documents
    only, each of which the callback has stored under an own property: had a
    key named an inherited property, the callback would have thrown and the
    loops would not run. *)
Definition items_of (key : Value) : Result (list Doc) :=
  if isNil key then Ok remaining
  else match grouped !! toPropertyKey key with
       | Some l => Ok l
       | None => Throw TypeError
       end.

(** State of the loops: [bucketItems], [index], [boundaries], [result]. *)
Definition LoopState : Type := list Doc * nat * Boundaries * list Bucket.

(** The inner loop, [j] steps left ([approxBucketSize - j]); the lookup
    [sorted !! index] is the test [index < len]. *)
Fixpoint inner (steps : nat) (st : LoopState) : Result LoopState :=
  match steps with
  | O => Ok st
  | S steps' =>
      let '(items, index, boundaries, result) := st in
      match sorted !! index with
      | None => Ok st
      | Some o =>
          let key0 := computeValueOptimized o in
          (* if (isNil(key)) key = null *)
          let key := if isNil key0 then VNull else key0 in
          (* into(bucketItems, isNil(key) ? remaining : grouped[key]) *)
          found ← items_of key;
          let items' := items ++ found in
          (* index += (isNil(key) ? remaining.length : grouped[key].length) *)
          let index' := (index + length found)%nat in
          (* if (!has(boundaries, 'min')) boundaries.min = key *)
          let boundaries' :=
            match own_min boundaries with
            | Some _ => boundaries
            | None => mkBoundaries (Some key) (own_max boundaries)
            end in
          (* if (result.length > 0) lastBucket[ID_KEY].max = boundaries.min *)
          let result' := set_last_max (get_min boundaries') result in
          inner steps' (items', index', boundaries', result')
      end
  end.

Variable approxBucketSize : nat.

(** The outer loop, [left] buckets left ([bucketCount - i]). *)
Fixpoint outer (left : nat) (index : nat) (result : list Bucket)
    : Result (list Bucket) :=
  match left with
  | O => Ok result
  | S left' =>
      match sorted !! index with
      | None => Ok result
      | Some _ =>
          '(items, index', boundaries, result') ←
            inner approxBucketSize ([], index, mkBoundaries None None, result);
          (* if (i == bucketCount - 1) into(bucketItems, sorted.slice(index)) *)
          let items' :=
            match left' with
            | O => items ++ drop index' sorted
            | S _ => items
            end in
          (* result.push(into(computeValue(bucketItems, outputExpr, ...),
                              { '_id': boundaries })) *)
          outer left' index' (result' ++ [mkBucket boundaries items'])
      end
  end.

(** *** The loops as list functions

    The documents [sorted[index]] the inner loop looks at, what it adds
    for each, and the buckets the outer loop opens; the loops are proved
    to compute these. *)

(** The key of a document, [null] standing for both nil values. *)
Definition norm_key (o : Doc) : Value :=
  if isNil (computeValueOptimized o) then VNull else computeValueOptimized o.

Definition found_of (o : Doc) : list Doc :=
  if isNil (computeValueOptimized o) then remaining
  else default [] (grouped !! toPropertyKey (computeValueOptimized o)).

Fixpoint visited (steps index : nat) : list Doc :=
  match steps with
  | O => []
  | S steps' =>
      match sorted !! index with
      | None => []
      | Some o => o :: visited steps' (index + length (found_of o))
      end
  end.

(** The [min] and the items of the buckets opened from [index] on. *)
Fixpoint segments (left index : nat) : list (Value * list Doc) :=
  match left with
  | O => []
  | S left' =>
      match sorted !! index with
      | None => []
      | Some o =>
          let items := concat (map found_of (visited approxBucketSize index)) in
          let index' := (index + length items)%nat in
          (norm_key o,
           match left' with
           | O => items ++ drop index' sorted
           | S _ => items
           end) :: segments left' index'
      end
  end.
End Transform.

(** Buckets from [min]s and items: the [max] of a bucket is the [min] of
    the next one, and [final] for the last one. *)
Fixpoint link (final : option Value) (segs : list (Value * list Doc)) : list Bucket :=
  match segs with
  | [] => []
  | (m, items) :: rest =>
      mkBucket (mkBoundaries (Some m)
                  (match rest with [] => final | (m', _) :: _ => Some m' end))
               items :: link final rest
  end.

(** The callback of [collection.transform].  The sort runs its callback once
    on every document, in input order, so what the callback records in
    [grouped] and [remaining] is a run over the collection; an exception of
    the callback leaves the sort and the stage. *)
Definition transform (groupByExpr : Expr) (bucketCount : Z) (coll : list Doc)
    : Result (list Bucket) :=
  let approxBucketSize :=
    Z.max 1 (Math_round_div (Z.of_nat (length coll)) bucketCount) in
  '(grouped, remaining) ← record_keys groupByExpr (∅, []) coll;
  let sorted := sortBy coll (computeValueOptimized groupByExpr) compare in
  result ← outer groupByExpr grouped remaining sorted
               (Z.to_nat approxBucketSize) (Z.to_nat bucketCount) 0%nat [];
  (* if (result.length > 0)
       result[result.length - 1][ID_KEY].max =
         computeValueOptimized(sorted[sorted.length - 1], groupByExpr) *)
  Ok match last sorted with
     | Some o => set_last_max (computeValueOptimized groupByExpr o) result
     | None => result  (* [sorted] is empty, and so is [result] *)
     end.

(** The stage: the assertion runs when the stage is built, the callback when
    the collection is pulled. *)
Definition bucketAuto (collection : list Doc) (expr : BucketAutoSpec)
    : Result (list Bucket) :=
  let bucketCount := buckets expr in
  _ ← assert (gt_zero bucketCount)
          ("The $bucketAuto 'buckets' field must be greater than 0, but found: "
           +:+ ToString bucketCount);
  transform (groupBy expr) (default 0 (ToNumber bucketCount)) collection.
End BucketAuto.

(** ** Concrete documents for the scenarios *)

Definition Document : Type := list (string * Value).

(** Modelled from the spec: a field reference ["$name"] resolves to the value
    stored under [name], and to Missing when the document has no such key. *)
Definition resolve (o : Document) (name : string) : Value :=
  match list_find (λ kv, kv.1 = name) o with
  | Some (_, (_, v)) => v
  | None => VUndefined
  end.

(** Modelled from the spec: an expression with a leading [$] is a reference to
    a document field; any other string is a literal. *)
Definition computeValue_field (o : Document) (expr : string) : Value :=
  match expr with
  | String "$" name => resolve o name
  | _ => VStr expr
  end.

(** The collection [{_id: 1}, ..., {_id: 6}]. *)
Definition docs_1_to_6 : list Document :=
  map (λ i, [("_id"%string, VNum i)]) [1; 2; 3; 4; 5; 6].

(** The collection [{_id: 1}, ..., {_id: 4}]. *)
Definition docs_1_to_4 : list Document :=
  map (λ i, [("_id"%string, VNum i)]) [1; 2; 3; 4].

(** Four documents, the first with a [null] key. *)
Definition docs_null_first : list Document :=
  [[("k"%string, VNull)]; [("k"%string, VNum 1)];
   [("k"%string, VNum 2)]; [("k"%string, VNum 3)]].

(** Six documents keyed [1], ["01"], [1], [5], [7] and ["5"]: the number [5]
    and the string ["5"] share a property string, and so would the number
    [1] and a string ["1"]. *)
Definition doc_k (id : Z) (k : Value) : Document :=
  [("_id"%string, VNum id); ("k"%string, k)].

Definition docs_mixed_keys : list Document :=
  [doc_k 0 (VNum 1); doc_k 1 (VStr "01"); doc_k 2 (VNum 1);
   doc_k 3 (VNum 5); doc_k 4 (VNum 7); doc_k 5 (VStr "5")].

(** Seven documents keyed [1], [1], [2], [3], [4], [5] and [6]. *)
Definition docs_repeated_keys : list Document :=
  [doc_k 0 (VNum 1); doc_k 1 (VNum 1); doc_k 2 (VNum 2); doc_k 3 (VNum 3);
   doc_k 4 (VNum 4); doc_k 5 (VNum 5); doc_k 6 (VNum 6)].

(** Two documents keyed ["a"] and ["constructor"], the name of a property
    that every object inherits. *)
Definition docs_constructor : list Document :=
  [doc_k 0 (VStr "a"); doc_k 1 (VStr "constructor")].


(** ** Chunking *)

(** At most [left] chunks of [n] elements each, the last of [left] chunks
    taking all that is left. *)
Fixpoint chunk_keys {A : Type} (left n : nat) (ks : list A) : list (list A) :=
  match left with
  | O => []
  | S left' =>
      match ks with
      | [] => []
      | _ =>
          match left' with
          | O => [ks]
          | S _ => take n ks :: chunk_keys left' n (drop n ks)
          end
      end
  end.

(** The claim's reading of the chunking: consecutive runs of [n] documents,
    as many as the list gives ([fuel] bounds their number). *)
Fixpoint chunks_of {A : Type} (fuel n : nat) (l : list A) : list (list A) :=
  match fuel with
  | O => []
  | S fuel' =>
      match l with
      | [] => []
      | _ => take n l :: chunks_of fuel' n (drop n l)
      end
  end.

(** The claim's bucket size: [size / N] rounded up. *)
Definition ceil_div (size N : Z) : Z := (size + N - 1) / N.

(** ** Groups of documents *)

Section Groups.
Context {Doc Expr : Type} (computeValue : Doc -> Expr -> Value) (groupByExpr : Expr).

(** The documents whose key is not nil and has the property string [s]: what
    the sort callback stores under [grouped[s]]. *)
Definition by_property (coll : list Doc) (s : string) : list Doc :=
  filter (λ o, ¬ isNil (computeValueOptimized computeValue groupByExpr o) ∧
               toPropertyKey (computeValueOptimized computeValue groupByExpr o) = s) coll.

(** The documents with key [k], the nil keys counting as [null]. *)
Definition group (coll : list Doc) (k : Value) : list Doc :=
  filter (λ o, norm_key computeValue groupByExpr o = k) coll.

(** The keys of a list of documents in order, a run of equal keys counted
    once. *)
Fixpoint distinct_keys (l : list Doc) : list Value :=
  match l with
  | [] => []
  | o :: l' =>
      match distinct_keys l' with
      | k :: ks =>
          if decide (norm_key computeValue groupByExpr o = k) then k :: ks
          else norm_key computeValue groupByExpr o :: k :: ks
      | [] => [norm_key computeValue groupByExpr o]
      end
  end.

(** No two keys of the collection that differ share a property string. *)
Definition no_collision (coll : list Doc) : Prop :=
  ∀ x y, x ∈ coll → y ∈ coll →
    ¬ isNil (computeValueOptimized computeValue groupByExpr x) →
    ¬ isNil (computeValueOptimized computeValue groupByExpr y) →
    toPropertyKey (computeValueOptimized computeValue groupByExpr x) =
    toPropertyKey (computeValueOptimized computeValue groupByExpr y) →
    computeValueOptimized computeValue groupByExpr x =
    computeValueOptimized computeValue groupByExpr y.

(** No key of the collection names an inherited property: the sort callback
    throws nothing. *)
Definition own_keys (coll : list Doc) : Prop :=
  ∀ o, o ∈ coll → ¬ isNil (computeValueOptimized computeValue groupByExpr o) →
    inherited (toPropertyKey (computeValueOptimized computeValue groupByExpr o)) = false.

(** All keys of the collection are keys the embedding covers and the sort
    callback accepts. *)
Definition plain_keys (coll : list Doc) : Prop :=
  forallb (λ o, plain_key (computeValueOptimized computeValue groupByExpr o)) coll = true.

(** The pieces [transform] works on when the callback has thrown nothing,
    named after its local variables. *)
Definition grouped_of (coll : list Doc) : gmap string (list Doc) :=
  (foldl (store_key computeValue groupByExpr) (∅, []) coll).1.

Definition remaining_of (coll : list Doc) : list Doc :=
  (foldl (store_key computeValue groupByExpr) (∅, []) coll).2.

Definition sorted_of (coll : list Doc) : list Doc :=
  sortBy coll (computeValueOptimized computeValue groupByExpr) compare.

Definition approx_of (coll : list Doc) (bucketCount : Z) : nat :=
  Z.to_nat (Z.max 1 (Math_round_div (Z.of_nat (length coll)) bucketCount)).

(** The keys still ahead of [index] in the sorted collection: their groups
    are what is left of it, and each of them is the key of some document. *)
Definition ahead (coll : list Doc) (index : nat) (ks : list Value) : Prop :=
  drop index (sorted_of coll) = concat (map (group coll) ks) ∧
  ∀ k, k ∈ ks → ∃ o, o ∈ coll ∧ norm_key computeValue groupByExpr o = k.

(** The buckets of a collection, from the list description of the loops. *)
Definition buckets_of (coll : list Doc) (bucketCount : Z) : list (@Bucket Doc) :=
  link (computeValueOptimized computeValue groupByExpr <$> last (sorted_of coll))
    (segments computeValue groupByExpr (grouped_of coll) (remaining_of coll)
       (sorted_of coll) (approx_of coll bucketCount) (Z.to_nat bucketCount) 0).
End Groups.

(** A comparator that behaves as a total preorder: swapping the arguments
    swaps the answer, and "not above" is transitive. *)
Class Comparator {A : Type} (cmp : A -> A -> comparison) : Prop := {
  cmp_antisym : ∀ a b, cmp a b = CompOpp (cmp b a);
  cmp_le_trans : ∀ a b c, cmp a b ≠ Gt → cmp b c ≠ Gt → cmp a c ≠ Gt
}.

(** The counts of the default output added up over the buckets. *)
Definition total_count {Doc : Type} (bs : list (@Bucket Doc)) : Z :=
  foldr (λ b acc, count b + acc) 0 bs.

(** * Properties *)

(** ** The comparator on values *)

Lemma ascii_compare_lt_trans (a b c : ascii) :
  Ascii.compare a b = Lt → Ascii.compare b c = Lt → Ascii.compare a c = Lt.
Proof.
  unfold Ascii.compare. rewrite !N.compare_lt_iff. lia.
Qed.

Lemma string_compare_lt_trans (a b c : string) :
  String.compare a b = Lt → String.compare b c = Lt → String.compare a c = Lt.
Proof.
  revert b c. induction a as [|x a IH]; intros [|y b] [|z c]; simpl; try done.
  destruct (Ascii.compare x y) eqn:Hxy; try done.
  - apply Ascii.compare_eq_iff in Hxy as ->.
    destruct (Ascii.compare y z) eqn:Hyz; try done. apply IH.
  - destruct (Ascii.compare y z) eqn:Hyz; try done.
    + apply Ascii.compare_eq_iff in Hyz as ->. by rewrite Hxy.
    + by rewrite (ascii_compare_lt_trans x y z).
Qed.

Lemma string_compare_refl (a : string) : String.compare a a = Eq.
Proof.
  pose proof (String.compare_antisym a a) as H.
  by destruct (String.compare a a).
Qed.

Lemma string_compare_le_trans (a b c : string) :
  String.compare a b ≠ Gt → String.compare b c ≠ Gt → String.compare a c ≠ Gt.
Proof.
  destruct (String.compare a b) eqn:Hab; [| |done].
  - apply String.compare_eq_iff in Hab as ->. done.
  - destruct (String.compare b c) eqn:Hbc; [| |done].
    + apply String.compare_eq_iff in Hbc as ->. by rewrite Hab.
    + by rewrite (string_compare_lt_trans a b c).
Qed.

Lemma bool_compare_antisym (a b : bool) :
  Bool.compare a b = CompOpp (Bool.compare b a).
Proof. by destruct a, b. Qed.

Lemma bool_compare_le_trans (a b c : bool) :
  Bool.compare a b ≠ Gt → Bool.compare b c ≠ Gt → Bool.compare a c ≠ Gt.
Proof. by destruct a, b, c. Qed.

Lemma Z_compare_le_trans (a b c : Z) :
  (a ?= b) ≠ Gt → (b ?= c) ≠ Gt → (a ?= c) ≠ Gt.
Proof. fold (a <= b) (b <= c) (a <= c). lia. Qed.

#[global] Instance string_compare_Comparator : Comparator String.compare.
Proof.
  split; [apply String.compare_antisym|apply string_compare_le_trans].
Qed.

#[global] Instance compare_with_Comparator collate `{!Comparator collate} :
  Comparator (compare_with collate).
Proof.
  split.
  - intros [| |x|x|x] [| |y|y|y]; simpl; try done.
    + apply bool_compare_antisym.
    + apply Z.compare_antisym.
    + apply (cmp_antisym (cmp:=collate)).
  - intros [| |x|x|x] [| |y|y|y] [| |z|z|z]; simpl; try done.
    + apply bool_compare_le_trans.
    + apply Z_compare_le_trans.
    + apply (cmp_le_trans (cmp:=collate)).
Qed.

#[global] Instance compare_Comparator : Comparator compare.
Proof. unfold compare. apply _. Qed.

(** Values that compare equal are the same value, up to the two nil values. *)
Lemma compare_Eq (a b : Value) :
  compare a b = Eq ↔ (if isNil a then VNull else a) = (if isNil b then VNull else b).
Proof.
  unfold compare.
  destruct a as [| |x|x|x], b as [| |y|y|y]; simpl; split; try done.
  - by destruct x, y.
  - intros [= ->]. by destruct y.
  - by intros ->%Z.compare_eq.
  - intros [= ->]. apply Z.compare_refl.
  - by intros ->%String.compare_eq_iff.
  - intros [= ->]. apply string_compare_refl.
Qed.

(** ** Stable sorting *)

Section StableSortFacts.
Context {A : Type} (cmp : A -> A -> comparison).

Lemma cmp_refl `{!Comparator cmp} (a : A) : cmp a a = Eq.
Proof. pose proof (cmp_antisym a a). by destruct (cmp a a). Qed.

Lemma insert_sorted_Permutation (x : A) (l : list A) :
  insert_sorted cmp x l ≡ₚ x :: l.
Proof.
  induction l as [|y l IH]; simpl; [done|].
  destruct (cmp x y); try done.
  by rewrite IH, Permutation_swap.
Qed.

Lemma stable_sort_Permutation (l : list A) : stable_sort cmp l ≡ₚ l.
Proof.
  induction l as [|x l IH]; simpl; [done|].
  by rewrite insert_sorted_Permutation, IH.
Qed.

(** Elements picked by a predicate whose members are never above one another
    keep their order: the inserted element only passes elements it is
    above. *)
Lemma filter_insert_sorted (P : A → Prop) `{!∀ a, Decision (P a)} x l :
  (∀ a b, P a → P b → cmp a b ≠ Gt) →
  filter P (insert_sorted cmp x l) = filter P (x :: l).
Proof.
  intros HP. induction l as [|y l IH]; simpl; [done|].
  destruct (cmp x y) eqn:Hxy; try done.
  rewrite filter_cons, IH, !filter_cons.
  destruct (decide (P y)) as [Hy|Hy], (decide (P x)) as [Hx|Hx]; try done.
  by destruct (HP x y Hx Hy).
Qed.

Lemma filter_stable_sort (P : A → Prop) `{!∀ a, Decision (P a)} l :
  (∀ a b, P a → P b → cmp a b ≠ Gt) →
  filter P (stable_sort cmp l) = filter P l.
Proof.
  intros HP. induction l as [|x l IH]; simpl; [done|].
  rewrite filter_insert_sorted by done.
  by rewrite !filter_cons, IH.
Qed.

Context `{!Comparator cmp}.

Lemma cmp_flip (a b : A) : cmp a b = Gt → cmp b a ≠ Gt.
Proof. intros H. rewrite cmp_antisym, H. done. Qed.

Lemma insert_sorted_StronglySorted (x : A) (l : list A) :
  StronglySorted (λ a b, cmp a b ≠ Gt) l →
  StronglySorted (λ a b, cmp a b ≠ Gt) (insert_sorted cmp x l).
Proof.
  induction 1 as [|y l Hl IH Hy]; simpl.
  - repeat constructor.
  - destruct (cmp x y) eqn:Hxy.
    + constructor; [by constructor|]. constructor; [by rewrite Hxy|].
      eapply Forall_impl; [exact Hy|]. intros z Hz. simpl in Hz.
      apply (cmp_le_trans x y z); [by rewrite Hxy|done].
    + constructor; [by constructor|]. constructor; [by rewrite Hxy|].
      eapply Forall_impl; [exact Hy|]. intros z Hz. simpl in Hz.
      apply (cmp_le_trans x y z); [by rewrite Hxy|done].
    + constructor; [done|].
      rewrite insert_sorted_Permutation. constructor; [|done].
      by apply cmp_flip.
Qed.

Lemma stable_sort_StronglySorted (l : list A) :
  StronglySorted (λ a b, cmp a b ≠ Gt) (stable_sort cmp l).
Proof.
  induction l as [|x l IH]; simpl; [constructor|].
  by apply insert_sorted_StronglySorted.
Qed.

(** Stability: the elements that compare equal to [a] come out in the order
    they went in. *)
Lemma stable_sort_stable (a : A) (l : list A) :
  filter (λ x, cmp a x = Eq) (stable_sort cmp l) = filter (λ x, cmp a x = Eq) l.
Proof.
  apply filter_stable_sort. intros x y Hx Hy.
  apply (cmp_le_trans x a y); [|by rewrite Hy].
  by rewrite cmp_antisym, Hx.
Qed.
End StableSortFacts.

(** ** The loops of [$bucketAuto] *)

Section Loops.
Context {Doc Expr : Type} (computeValue : Doc -> Expr -> Value).
Variable groupByExpr : Expr.
Variables (grouped : gmap string (list Doc)) (remaining sorted : list Doc).

Local Abbreviation key := (computeValueOptimized computeValue groupByExpr).
Local Abbreviation norm_key := (norm_key computeValue groupByExpr).
Local Abbreviation found_of := (found_of computeValue groupByExpr grouped remaining).
Local Abbreviation visited := (visited computeValue groupByExpr grouped remaining sorted).
Local Abbreviation inner := (inner computeValue groupByExpr grouped remaining sorted).

Lemma set_last_max_nil (v : Value) : set_last_max (Doc:=Doc) v [] = [].
Proof. done. Qed.

Lemma set_last_max_snoc (v : Value) (result : list (@Bucket Doc)) b :
  set_last_max v (result ++ [b]) = result ++ [set_max v b].
Proof.
  unfold set_last_max. rewrite last_snoc, length_app. simpl.
  replace (pred (length result + 1)) with (length result + 0)%nat by lia.
  by rewrite insert_app_r.
Qed.

Lemma set_last_max_idemp (v : Value) (result : list (@Bucket Doc)) :
  set_last_max v (set_last_max v result) = set_last_max v result.
Proof.
  destruct result as [|b result _] using rev_ind; [done|].
  by rewrite !set_last_max_snoc.
Qed.

(** Every lookup the loops make finds its entry. *)
Hypothesis Hfound : ∀ o, o ∈ sorted → ¬ isNil (key o) →
  is_Some (grouped !! toPropertyKey (key o)).

Lemma items_of_found (o : Doc) :
  o ∈ sorted →
  items_of grouped remaining (norm_key o) = Ok (found_of o).
Proof.
  intros Ho. unfold items_of, norm_key, found_of.
  destruct (isNil (key o)) eqn:Hnil; simpl; [done|].
  rewrite Hnil. destruct (Hfound o Ho) as [l ->]; [by apply Is_true_false_2|done].
Qed.

Lemma inner_Ok (steps : nat) items index boundaries result :
  inner steps (items, index, boundaries, result) =
  let os := visited steps index in
  let added := concat (map found_of os) in
  let boundaries' :=
    match os, own_min boundaries with
    | o :: _, None => mkBoundaries (Some (norm_key o)) (own_max boundaries)
    | _, _ => boundaries
    end in
  Ok (items ++ added, (index + length added)%nat, boundaries',
      match os with
      | [] => result
      | _ => set_last_max (get_min boundaries') result
      end).
Proof.
  revert items index boundaries result.
  induction steps as [|steps IH]; intros items index boundaries result; simpl.
  - by rewrite app_nil_r, Nat.add_0_r.
  - destruct (sorted !! index) as [o|] eqn:Hidx; simpl.
    2: { by rewrite app_nil_r, Nat.add_0_r. }
    fold (norm_key o).
    rewrite items_of_found by (by eapply list_elem_of_lookup_2).
    simpl. rewrite IH. simpl.
    rewrite length_app, <- !(assoc_L (++)), !Nat.add_assoc.
    destruct (own_min boundaries) as [m|] eqn:Hmin; simpl.
    + rewrite Hmin. destruct (visited _ _); simpl;
        by rewrite ?Hmin, ?set_last_max_idemp.
    + destruct (visited _ _); simpl; by rewrite ?set_last_max_idemp.
Qed.

Lemma visited_head (steps index : nat) (o : Doc) :
  steps ≠ 0%nat → sorted !! index = Some o →
  visited steps index = o :: visited (pred steps) (index + length (found_of o)).
Proof. destruct steps; [done|]. intros _ Hidx. simpl. by rewrite Hidx. Qed.

Variable approxBucketSize : nat.
Hypothesis Happrox : approxBucketSize ≠ 0%nat.

Local Abbreviation outer := (outer computeValue groupByExpr grouped remaining sorted approxBucketSize).
Local Abbreviation segments := (segments computeValue groupByExpr grouped remaining sorted approxBucketSize).

Lemma outer_Ok (left index : nat) (result : list Bucket) :
  outer left index result =
  Ok (match segments left index with
      | [] => result
      | (m, _) :: _ => set_last_max m result
      end ++ link None (segments left index)).
Proof.
  revert index result. induction left as [|left IH]; intros index result; simpl.
  - by rewrite app_nil_r.
  - destruct (sorted !! index) as [o|] eqn:Hidx; simpl.
    2: { by rewrite app_nil_r. }
    rewrite inner_Ok. simpl.
    rewrite (visited_head _ _ o Happrox Hidx). simpl.
    rewrite IH. f_equal.
    destruct (segments left _) as [|[m its] rest] eqn:Hsegs; simpl.
    + by rewrite <- (assoc_L (++)).
    + by rewrite set_last_max_snoc, <- (assoc_L (++)).
Qed.
End Loops.

(** ** What the sort and its callback compute from the collection *)

Section Collection.
Context {Doc Expr : Type} (computeValue : Doc -> Expr -> Value).
Variable groupByExpr : Expr.

Local Abbreviation key := (computeValueOptimized computeValue groupByExpr).
Local Abbreviation norm_key := (norm_key computeValue groupByExpr).
Local Abbreviation store_key := (store_key computeValue groupByExpr).
Local Abbreviation by_property := (by_property computeValue groupByExpr).

Lemma norm_key_nil (o : Doc) : norm_key o = VNull ↔ isNil (key o).
Proof. unfold norm_key. by destruct (key o). Qed.

Lemma norm_key_not_nil (o : Doc) : ¬ isNil (key o) → norm_key o = key o.
Proof. unfold norm_key. by destruct (key o). Qed.

Lemma compare_key_Eq (a b : Doc) :
  compare (key a) (key b) = Eq ↔ norm_key a = norm_key b.
Proof. apply compare_Eq. Qed.

Lemma by_property_cons (o : Doc) (coll : list Doc) (s : string) :
  by_property (o :: coll) s =
  if decide (¬ isNil (key o) ∧ toPropertyKey (key o) = s)
  then o :: by_property coll s else by_property coll s.
Proof. unfold by_property. by rewrite filter_cons. Qed.

Lemma foldl_store_key (coll : list Doc) g r :
  (foldl store_key (g, r) coll).2 = r ++ filter (λ o, isNil (key o)) coll ∧
  ∀ s, (foldl store_key (g, r) coll).1 !! s =
       match by_property coll s with
       | [] => g !! s
       | l => Some (default [] (g !! s) ++ l)
       end.
Proof.
  revert g r. induction coll as [|o coll IH]; intros g r; simpl.
  - by rewrite app_nil_r.
  - unfold store_key at 2 4. simpl.
    destruct (isNil (key o)) eqn:Hnil; simpl.
    + destruct (IH g (r ++ [o])) as [-> Hg]. split.
      * rewrite filter_cons_True by (by rewrite Hnil).
        by rewrite <- (assoc_L (++)).
      * intros s. rewrite Hg, by_property_cons.
        rewrite decide_False; [done|]. rewrite Hnil. by intros [[] _].
    + destruct (IH (<[toPropertyKey (key o) :=
                       default [] (g !! toPropertyKey (key o)) ++ [o]]> g) r)
        as [-> Hg]. split.
      * by rewrite filter_cons_False by (by apply Is_true_false_2).
      * intros s. rewrite Hg, by_property_cons.
        destruct (decide (toPropertyKey (key o) = s)) as [<-|Hne].
        -- rewrite lookup_insert_eq. simpl.
           rewrite decide_True by (by split; [apply Is_true_false_2|]).
           destruct (by_property coll _); simpl; [done|].
           by rewrite <- (assoc_L (++)).
        -- rewrite lookup_insert_ne by done.
           rewrite decide_False; [done|]. by intros [_ ?].
Qed.

Lemma remaining_eq (coll : list Doc) :
  (foldl store_key (∅, []) coll).2 = filter (λ o, isNil (key o)) coll.
Proof. by destruct (foldl_store_key coll ∅ []) as [-> _]. Qed.

Lemma grouped_lookup (coll : list Doc) (s : string) :
  (foldl store_key (∅, []) coll).1 !! s =
  match by_property coll s with [] => None | l => Some l end.
Proof.
  destruct (foldl_store_key coll ∅ []) as [_ ->].
  rewrite lookup_empty. by destruct (by_property coll s).
Qed.

Lemma grouped_lookup_own (coll : list Doc) (o : Doc) :
  o ∈ coll → ¬ isNil (key o) →
  (foldl store_key (∅, []) coll).1 !! toPropertyKey (key o) =
  Some (by_property coll (toPropertyKey (key o))).
Proof.
  intros Ho Hnil. rewrite grouped_lookup.
  assert (o ∈ by_property coll (toPropertyKey (key o))) as Hin.
  { unfold by_property. by apply list_elem_of_filter. }
  destruct (by_property coll _); [by apply not_elem_of_nil in Hin|done].
Qed.

(** *** The run of the sort callback *)

Local Abbreviation record_key := (record_key computeValue groupByExpr).
Local Abbreviation record_keys := (record_keys computeValue groupByExpr).
Local Abbreviation own_keys := (own_keys computeValue groupByExpr).
Local Abbreviation plain_keys := (plain_keys computeValue groupByExpr).

Lemma record_key_own st (o : Doc) :
  isNil (key o) = true ∨ inherited (toPropertyKey (key o)) = false →
  record_key st o = Ok (store_key st o).
Proof.
  intros Hok. unfold record_key, store_key.
  destruct (isNil (key o)) eqn:Hnil; [done|].
  destruct Hok as [?|Hown]; [done|]. rewrite Hown.
  by destruct (st.1 !! toPropertyKey (key o)).
Qed.

Lemma record_key_inherited st (o : Doc) :
  isNil (key o) = false → inherited (toPropertyKey (key o)) = true →
  st.1 !! toPropertyKey (key o) = None →
  record_key st o = Throw TypeError.
Proof. intros Hnil Hinh Hst. unfold record_key. by rewrite Hnil, Hst, Hinh. Qed.

(** When no key names an inherited property the callback throws nothing. *)
Lemma record_keys_Ok (coll : list Doc) st :
  own_keys coll → record_keys st coll = Ok (foldl store_key st coll).
Proof.
  revert st. induction coll as [|o coll IH]; intros st Hown; [done|].
  simpl. rewrite record_key_own.
  - simpl. apply IH. intros o' Ho'. apply Hown. by right.
  - destruct (isNil (key o)) eqn:Hnil; [by left|right].
    apply Hown; [left|]. by apply Is_true_false_2.
Qed.

(** When some key names an inherited property the callback throws. *)
Lemma record_keys_Throw (coll : list Doc) st :
  (∀ s, inherited s = true → st.1 !! s = None) →
  (∃ o, o ∈ coll ∧ ¬ isNil (key o) ∧ inherited (toPropertyKey (key o)) = true) →
  record_keys st coll = Throw TypeError.
Proof.
  revert st. induction coll as [|o coll IH]; intros st Hst (o' & Ho' & Hnil' & Hinh').
  { by apply not_elem_of_nil in Ho'. }
  simpl. destruct (isNil (key o)) eqn:Hnil.
  - rewrite record_key_own by (by left). simpl. apply IH.
    + unfold store_key. by rewrite Hnil.
    + exists o'. split; [|done].
      apply elem_of_cons in Ho' as [->|?]; [|done].
      destruct Hnil'. by rewrite Hnil.
  - destruct (inherited (toPropertyKey (key o))) eqn:Hinh.
    + rewrite record_key_inherited by (try done; by apply Hst). done.
    + rewrite record_key_own by (by right). simpl. apply IH.
      * unfold store_key. rewrite Hnil. simpl. intros s Hs.
        rewrite lookup_insert_ne; [by apply Hst|]. intros <-. congruence.
      * exists o'. split; [|done].
        apply elem_of_cons in Ho' as [->|?]; [|done]. congruence.
Qed.

Lemma own_keys_or_not (coll : list Doc) :
  own_keys coll ∨
  ∃ o, o ∈ coll ∧ ¬ isNil (key o) ∧ inherited (toPropertyKey (key o)) = true.
Proof.
  induction coll as [|o coll [IH|(o' & Ho' & Hbad)]].
  - left. by intros o ?%not_elem_of_nil.
  - destruct (isNil (key o)) eqn:Hnil.
    { left. intros o' [->|Ho']%elem_of_cons Hnil'; [|by apply IH].
      destruct Hnil'. by rewrite Hnil. }
    destruct (inherited (toPropertyKey (key o))) eqn:Hinh.
    + right. exists o. split; [left|]. split; [by apply Is_true_false_2|done].
    + left. intros o' [->|Ho']%elem_of_cons Hnil'; [done|by apply IH].
  - right. exists o'. split; [by right|done].
Qed.

Lemma own_keys_not_inherited (coll : list Doc) (o : Doc) :
  own_keys coll → o ∈ coll → ¬ isNil (key o) →
  inherited (toPropertyKey (key o)) = true → False.
Proof. intros Hown Ho Hnil Hinh. rewrite (Hown o Ho Hnil) in Hinh. done. Qed.

Lemma plain_keys_elem (coll : list Doc) (o : Doc) :
  plain_keys coll → o ∈ coll → plain_key (key o) = true.
Proof.
  unfold plain_keys. rewrite forallb_forall. intros Hall Ho.
  apply Hall. by apply list_elem_of_In.
Qed.

Lemma plain_keys_own (coll : list Doc) : plain_keys coll → own_keys coll.
Proof.
  intros Hplain o Ho Hnil. apply (plain_keys_elem _ _ Hplain) in Ho.
  unfold plain_key in Ho. rewrite (Is_true_false_1 _ Hnil) in Ho. simpl in Ho.
  apply andb_true_iff in Ho as [Ho _]. by apply negb_true_iff in Ho.
Qed.
End Collection.

(** ** The sort on keys *)

Lemma filter_none {A : Type} (P : A → Prop) `{!∀ a, Decision (P a)} (l : list A) :
  (∀ x, x ∈ l → ¬ P x) → filter P l = [].
Proof.
  intros HP. destruct (filter P l) as [|x l'] eqn:Hf; [done|].
  assert (x ∈ filter P l) as [Hx Hin]%list_elem_of_filter by (rewrite Hf; left).
  by destruct (HP x Hin).
Qed.

Lemma elem_of_concat_map {A B : Type} (f : A → list B) (l : list A) (x : B) :
  x ∈ concat (map f l) ↔ ∃ a, a ∈ l ∧ x ∈ f a.
Proof.
  induction l as [|a l IH]; simpl.
  - split; [by intros ?%not_elem_of_nil|]. by intros (a & ?%not_elem_of_nil & _).
  - rewrite elem_of_app, IH. split.
    + intros [Hx|(a' & Ha' & Hx)].
      * exists a. split; [by left|done].
      * exists a'. split; [by right|done].
    + intros (a' & [->|Ha']%elem_of_cons & Hx); [by left|right; eauto].
Qed.

Lemma filter_all {A : Type} (P : A → Prop) `{!∀ a, Decision (P a)} (l : list A) :
  (∀ x, x ∈ l → P x) → filter P l = l.
Proof.
  induction l as [|x l IH]; intros HP; [done|].
  rewrite filter_cons_True by (apply HP; left).
  rewrite IH; [done|]. intros y Hy. apply HP. by right.
Qed.

#[global] Instance Comparator_on_key {A B : Type} (f : A → B)
  (cmp : B → B → comparison) `{!Comparator cmp} :
  Comparator (λ x y, cmp (f x) (f y)).
Proof.
  split.
  - intros a b. apply (cmp_antisym (cmp:=cmp)).
  - intros a b c. apply (cmp_le_trans (cmp:=cmp)).
Qed.

Section SortByFacts.
Context {A : Type} (fn : A → Value).

Lemma sortBy_nil cmp : sortBy [] fn cmp = [].
Proof. done. Qed.

Lemma sortBy_Permutation (coll : list A) cmp : sortBy coll fn cmp ≡ₚ coll.
Proof.
  unfold sortBy. rewrite stable_sort_Permutation.
  apply (filter_app_complement (λ o, Is_true (isNil (fn o)))).
Qed.

Lemma sortBy_elem_of (coll : list A) cmp (o : A) :
  o ∈ sortBy coll fn cmp ↔ o ∈ coll.
Proof. by rewrite sortBy_Permutation. Qed.

Lemma sortBy_length (coll : list A) cmp : length (sortBy coll fn cmp) = length coll.
Proof. by rewrite sortBy_Permutation. Qed.

(** A predicate that holds of documents on one side only (nil keys, or keys
    that are not nil) selects the same documents, in the same order, before
    and after the sort. *)
Lemma sortBy_filter (P : A → Prop) `{!∀ a, Decision (P a)} (coll : list A) cmp :
  (∀ a b, P a → P b → cmp (fn a) (fn b) ≠ Gt) →
  (∀ a b, P a → P b → isNil (fn a) = isNil (fn b)) →
  filter P (sortBy coll fn cmp) = filter P coll.
Proof.
  intros Hle Hside. unfold sortBy.
  rewrite filter_app, (filter_stable_sort _ P) by done.
  induction coll as [|o coll IH]; [done|].
  rewrite !(filter_cons _ o).
  destruct (decide (isNil (fn o))) as [Hnil|Hnil].
  - rewrite decide_False by tauto. simpl. rewrite !(filter_cons _ o).
    destruct (decide (P o)) as [Ho|Ho]; [|done].
    simpl. by rewrite IH.
  - rewrite decide_True by done. rewrite !(filter_cons _ o).
    destruct (decide (P o)) as [Ho|Ho]; [|done].
    rewrite <- IH.
    assert (filter P (filter (λ o, isNil (fn o)) coll) = []) as ->; [|done].
    apply filter_none.
    intros a [Ha _]%list_elem_of_filter Hpa.
    apply Hnil. by rewrite <- (Hside a o).
Qed.

Lemma sortBy_StronglySorted (coll : list A) :
  StronglySorted (λ a b, compare (fn a) (fn b) ≠ Gt) (sortBy coll fn compare).
Proof.
  unfold sortBy. apply StronglySorted_app. split_and!.
  - intros a b [Ha _]%list_elem_of_filter Hb.
    rewrite (stable_sort_Permutation _ _) in Hb.
    apply list_elem_of_filter in Hb as [Hb _].
    unfold compare. destruct (fn a), (fn b); simpl in *; done.
  - induction coll as [|o coll IH]; [constructor|].
    rewrite filter_cons. destruct (decide (isNil (fn o))) as [Ho|Ho]; [|done].
    constructor; [done|]. apply Forall_forall.
    intros a [Ha _]%list_elem_of_filter.
    unfold compare. destruct (fn o), (fn a); simpl in *; done.
  - apply (stable_sort_StronglySorted (λ x y, compare (fn x) (fn y))).
Qed.

(** The last document of the sorted collection carries the greatest key. *)
Lemma sortBy_last_greatest (coll : list A) (o : A) :
  last (sortBy coll fn compare) = Some o →
  o ∈ coll ∧ ∀ d, d ∈ coll → compare (fn d) (fn o) ≠ Gt.
Proof.
  intros Hlast. pose proof (sortBy_StronglySorted coll) as Hsorted.
  apply last_Some in Hlast as [l Hl]. rewrite Hl in Hsorted.
  assert (∀ d, d ∈ coll ↔ d ∈ l ++ [o]) as Hin.
  { intros d. by rewrite <- Hl, sortBy_elem_of. }
  split; [apply Hin, elem_of_app; right; left|].
  intros d [Hd|Hd]%Hin%elem_of_app.
  - apply (StronglySorted_app_1_elem_of _ _ _ _ _ Hsorted Hd). left.
  - apply list_elem_of_singleton in Hd as ->.
    by rewrite (cmp_refl compare).
Qed.
End SortByFacts.

(** ** Linking buckets *)

Section Link.
Context {Doc : Type}.
Implicit Types (segs : list (Value * list Doc)) (final : option Value).

Lemma link_length final segs : length (link final segs) = length segs.
Proof. induction segs as [|[m its] segs IH]; simpl; congruence. Qed.

Lemma link_items final segs : map bucketItems (link final segs) = map snd segs.
Proof. induction segs as [|[m its] segs IH]; simpl; congruence. Qed.

Lemma link_lookup final segs (i : nat) (b : Bucket) :
  link final segs !! i = Some b ↔
  ∃ m items, segs !! i = Some (m, items) ∧
    b = mkBucket (mkBoundaries (Some m)
                    (match segs !! S i with
                     | Some (m', _) => Some m'
                     | None => final
                     end)) items.
Proof.
  revert i. induction segs as [|[m its] segs IH]; intros i; simpl.
  - split; [done|]. by intros (? & ? & ? & _).
  - destruct i as [|i]; simpl.
    + destruct segs as [|[m' its'] segs]; simpl.
      * split; [intros [= <-]; by eexists _, _|by intros (? & ? & [= <- <-] & ->)].
      * split; [intros [= <-]; by eexists _, _|by intros (? & ? & [= <- <-] & ->)].
    + apply IH.
Qed.

Lemma set_last_max_cons (v : Value) (b : @Bucket Doc) (l : list Bucket) :
  l ≠ [] → set_last_max v (b :: l) = b :: set_last_max v l.
Proof.
  destruct l as [|x l _] using rev_ind; [done|]. intros _.
  by rewrite app_comm_cons, !set_last_max_snoc.
Qed.

Lemma set_last_max_link (v : Value) segs :
  set_last_max v (link None segs) = link (Some v) segs.
Proof.
  induction segs as [|[m its] segs IH]; [done|].
  destruct segs as [|[m' its'] segs]; [done|].
  change (link None ((m, its) :: (m', its') :: segs))
    with (mkBucket (mkBoundaries (Some m) (Some m')) its :: link None ((m', its') :: segs)).
  by rewrite set_last_max_cons, IH.
Qed.
End Link.

(** ** [transform] computes [buckets_of] *)

Section TransformFacts.
Context {Doc Expr : Type} (computeValue : Doc -> Expr -> Value).
Variable groupByExpr : Expr.

Local Abbreviation key := (computeValueOptimized computeValue groupByExpr).
Local Abbreviation sorted_of := (sorted_of computeValue groupByExpr).
Local Abbreviation grouped_of := (grouped_of computeValue groupByExpr).
Local Abbreviation remaining_of := (remaining_of computeValue groupByExpr).
Local Abbreviation buckets_of := (buckets_of computeValue groupByExpr).

Lemma sorted_of_elem_of (coll : list Doc) (o : Doc) : o ∈ sorted_of coll ↔ o ∈ coll.
Proof. apply sortBy_elem_of. Qed.

Lemma grouped_of_found (coll : list Doc) (o : Doc) :
  o ∈ sorted_of coll → ¬ isNil (key o) →
  is_Some (grouped_of coll !! toPropertyKey (key o)).
Proof.
  intros Ho Hnil. apply (proj1 (sorted_of_elem_of coll o)) in Ho.
  unfold grouped_of.
  rewrite (grouped_lookup_own _ _ coll o Ho Hnil). by eexists.
Qed.

Lemma approx_of_ne_0 (coll : list Doc) (bucketCount : Z) :
  approx_of coll bucketCount ≠ 0%nat.
Proof. unfold approx_of. lia. Qed.

Lemma transform_Ok (coll : list Doc) (bucketCount : Z) :
  own_keys computeValue groupByExpr coll →
  transform computeValue groupByExpr bucketCount coll = Ok (buckets_of coll bucketCount).
Proof.
  intros Hown. unfold transform, buckets_of.
  rewrite (record_keys_Ok _ _ _ _ Hown).
  fold (sorted_of coll) (approx_of coll bucketCount).
  pose proof (grouped_of_found coll) as Hfound.
  unfold grouped_of, remaining_of in *.
  destruct (foldl _ _ coll) as [grouped remaining]. simpl in *.
  rewrite (outer_Ok computeValue groupByExpr grouped remaining (sorted_of coll) Hfound
             _ (approx_of_ne_0 coll bucketCount)).
  simpl. f_equal.
  set (segs := segments _ _ _ _ _ _ _ _).
  assert (match segs with [] => [] | (m, _) :: _ => set_last_max m [] end = [])
    as -> by (by destruct segs as [|[??]?]).
  simpl. destruct (last _); simpl; [apply set_last_max_link|done].
Qed.

Lemma transform_Throw (coll : list Doc) (bucketCount : Z) :
  (∃ o, o ∈ coll ∧ ¬ isNil (key o) ∧ inherited (toPropertyKey (key o)) = true) →
  transform computeValue groupByExpr bucketCount coll = Throw TypeError.
Proof.
  intros Hbad. unfold transform.
  by rewrite (record_keys_Throw _ _ coll (∅, [])).
Qed.

End TransformFacts.

Section StageFacts.
Context {Doc Expr : Type} (computeValue : Doc -> Expr -> Value).

Lemma bucketAuto_Ok_own (coll : list Doc) (expr : BucketAutoSpec) (n : Z) :
  ToNumber (buckets expr) = Some n → 0 < n →
  own_keys computeValue (groupBy expr) coll →
  bucketAuto computeValue coll expr =
  Ok (buckets_of computeValue (groupBy expr) coll n).
Proof.
  intros Hn Hpos Hown. unfold bucketAuto, gt_zero. rewrite Hn.
  rewrite bool_decide_eq_true_2 by done. simpl.
  by apply transform_Ok.
Qed.

Lemma bucketAuto_Ok (coll : list Doc) (expr : BucketAutoSpec) (n : Z) :
  ToNumber (buckets expr) = Some n → 0 < n →
  plain_keys computeValue (groupBy expr) coll →
  bucketAuto computeValue coll expr =
  Ok (buckets_of computeValue (groupBy expr) coll n).
Proof.
  intros Hn Hpos Hplain. by apply bucketAuto_Ok_own, plain_keys_own.
Qed.

Lemma bucketAuto_TypeError (coll : list Doc) (expr : BucketAutoSpec) :
  gt_zero (buckets expr) = true →
  (∃ o, o ∈ coll ∧ ¬ isNil (computeValue o (groupBy expr)) ∧
        inherited (toPropertyKey (computeValue o (groupBy expr))) = true) →
  bucketAuto computeValue coll expr = Throw TypeError.
Proof.
  intros Hgt Hbad. unfold bucketAuto. rewrite Hgt. simpl.
  by apply transform_Throw.
Qed.

End StageFacts.

(** ** The buckets of a collection *)

Section SegmentFacts.
Context {Doc Expr : Type} (computeValue : Doc -> Expr -> Value).
Variables (groupByExpr : Expr) (coll : list Doc) (approxBucketSize : nat).
Hypothesis Happrox : approxBucketSize ≠ 0%nat.

Local Abbreviation key := (computeValueOptimized computeValue groupByExpr).
Local Abbreviation norm_key := (norm_key computeValue groupByExpr).
Local Abbreviation sorted := (sorted_of computeValue groupByExpr coll).
Local Abbreviation grouped := (grouped_of computeValue groupByExpr coll).
Local Abbreviation remaining := (remaining_of computeValue groupByExpr coll).
Local Abbreviation found_of := (found_of computeValue groupByExpr grouped remaining).
Local Abbreviation visited := (visited computeValue groupByExpr grouped remaining sorted).
Local Abbreviation segments :=
  (segments computeValue groupByExpr grouped remaining sorted approxBucketSize).

Lemma found_of_nil (o : Doc) :
  isNil (key o) → found_of o = filter (λ d, isNil (key d)) coll.
Proof.
  intros Hnil. unfold found_of.
  destruct (isNil (key o)); [|done]. apply remaining_eq.
Qed.

Lemma found_of_not_nil (o : Doc) :
  o ∈ coll → ¬ isNil (key o) →
  found_of o = by_property computeValue groupByExpr coll (toPropertyKey (key o)).
Proof.
  intros Ho Hnil. unfold found_of.
  rewrite (Is_true_false_1 _ Hnil).
  unfold grouped_of. by rewrite (grouped_lookup_own _ _ coll o Ho Hnil).
Qed.

Lemma found_of_own (o : Doc) : o ∈ coll → o ∈ found_of o.
Proof.
  intros Ho. destruct (decide (isNil (key o))) as [Hnil|Hnil].
  - rewrite found_of_nil by done. by apply list_elem_of_filter.
  - rewrite found_of_not_nil by done. by apply list_elem_of_filter.
Qed.

Lemma found_of_elem (o d : Doc) :
  o ∈ coll → d ∈ found_of o → d ∈ coll ∧ isNil (key d) = isNil (key o).
Proof.
  intros Ho. destruct (decide (isNil (key o))) as [Hnil|Hnil].
  - rewrite found_of_nil by done. intros [Hd ?]%list_elem_of_filter.
    split; [done|]. by destruct (isNil (key d)), (isNil (key o)).
  - rewrite found_of_not_nil by done. intros [[Hd _] ?]%list_elem_of_filter.
    split; [done|]. by destruct (isNil (key d)), (isNil (key o)).
Qed.

Lemma visited_elem (steps index : nat) (o : Doc) :
  o ∈ visited steps index → o ∈ coll.
Proof.
  revert index. induction steps as [|steps IH]; intros index; simpl.
  - by intros ?%not_elem_of_nil.
  - destruct (sorted !! index) as [o'|] eqn:Hidx; [|by intros ?%not_elem_of_nil].
    intros [->|Ho]%elem_of_cons; [|by eapply IH].
    apply (sorted_of_elem_of computeValue groupByExpr).
    by eapply list_elem_of_lookup_2.
Qed.

Lemma visited_found_elem (steps index : nat) (d : Doc) :
  d ∈ concat (map found_of (visited steps index)) → d ∈ coll.
Proof.
  intros (o & Ho & Hd)%elem_of_concat_map.
  apply visited_elem in Ho. by destruct (found_of_elem o d Ho Hd).
Qed.

Lemma segments_length (left index : nat) : (length (segments left index) ≤ left)%nat.
Proof.
  revert index. induction left as [|left IH]; intros index; simpl; [done|].
  destruct (sorted !! index); simpl; [|lia]. specialize (IH (index +
    length (concat (map found_of (visited approxBucketSize index))))%nat). lia.
Qed.

(** Every bucket holds at least one document, and only input documents. *)
Lemma segments_items (left index : nat) (m : Value) (items : list Doc) :
  (m, items) ∈ segments left index →
  items ≠ [] ∧ ∀ d, d ∈ items → d ∈ coll.
Proof.
  revert index. induction left as [|left IH]; intros index; simpl.
  - by intros ?%not_elem_of_nil.
  - destruct (sorted !! index) as [o|] eqn:Hidx; [|by intros ?%not_elem_of_nil].
    intros [[= -> ->]|Hin]%elem_of_cons; [|by eapply IH].
    assert (o ∈ coll) as Ho.
    { apply (sorted_of_elem_of computeValue groupByExpr).
      by eapply list_elem_of_lookup_2. }
    split.
    + rewrite (visited_head _ _ _ _ _ _ _ o Happrox Hidx). simpl.
      pose proof (found_of_own o Ho) as Hown.
      destruct (found_of o); [by apply not_elem_of_nil in Hown|].
      by destruct left.
    + intros d Hd.
      assert (d ∈ concat (map found_of (visited approxBucketSize index)) ∨
              d ∈ sorted) as [Hd'|Hd'].
      { destruct left; [|by left].
        apply elem_of_app in Hd as [Hd|Hd]; [by left|right].
        by eapply subseteq_drop. }
      * by eapply visited_found_elem.
      * by apply (sorted_of_elem_of computeValue groupByExpr).
Qed.
End SegmentFacts.

(** ** Documents with a nil key *)

Section NilFacts.
Context {Doc Expr : Type} (computeValue : Doc -> Expr -> Value).
Variables (groupByExpr : Expr) (coll : list Doc) (approxBucketSize : nat).
Hypothesis Happrox : approxBucketSize ≠ 0%nat.

Local Abbreviation key := (computeValueOptimized computeValue groupByExpr).
Local Abbreviation sorted := (sorted_of computeValue groupByExpr coll).
Local Abbreviation grouped := (grouped_of computeValue groupByExpr coll).
Local Abbreviation remaining := (remaining_of computeValue groupByExpr coll).
Local Abbreviation found_of := (found_of computeValue groupByExpr grouped remaining).
Local Abbreviation visited := (visited computeValue groupByExpr grouped remaining sorted).
Local Abbreviation segments :=
  (segments computeValue groupByExpr grouped remaining sorted approxBucketSize).
Local Abbreviation nils := (filter (λ d, isNil (key d)) coll).

Lemma sorted_of_split :
  sorted = nils ++ stable_sort (λ x y, compare (key x) (key y))
                     (filter (λ o, ¬ isNil (key o)) coll).
Proof. done. Qed.

Lemma sorted_lookup_not_nil (index : nat) (o : Doc) :
  (length nils ≤ index)%nat → sorted !! index = Some o → ¬ isNil (key o).
Proof.
  intros Hle. rewrite sorted_of_split, lookup_app_r by done.
  intros Ho%list_elem_of_lookup_2.
  rewrite (stable_sort_Permutation _ _) in Ho.
  by apply list_elem_of_filter in Ho as [? _].
Qed.

Lemma visited_not_nil (steps index : nat) (o : Doc) :
  (length nils ≤ index)%nat → o ∈ visited steps index → ¬ isNil (key o).
Proof.
  revert index. induction steps as [|steps IH]; intros index Hle; simpl.
  - by intros ?%not_elem_of_nil.
  - destruct (sorted !! index) as [o'|] eqn:Hidx; [|by intros ?%not_elem_of_nil].
    intros [->|Ho]%elem_of_cons; [by eapply sorted_lookup_not_nil|].
    eapply IH; [|done]. lia.
Qed.

Lemma visited_found_not_nil (steps index : nat) (d : Doc) :
  (length nils ≤ index)%nat →
  d ∈ concat (map found_of (visited steps index)) → ¬ isNil (key d).
Proof.
  intros Hle (o & Ho & Hd)%elem_of_concat_map.
  pose proof (visited_not_nil _ _ _ Hle Ho) as Hnil.
  apply visited_elem in Ho.
  destruct (found_of_elem computeValue groupByExpr coll o d Ho Hd) as [_ ->].
  done.
Qed.

Lemma drop_sorted_not_nil (index : nat) (d : Doc) :
  (length nils ≤ index)%nat → d ∈ drop index sorted → ¬ isNil (key d).
Proof.
  intros Hle (i & Hd)%list_elem_of_lookup_1. rewrite lookup_drop in Hd.
  eapply (sorted_lookup_not_nil (index + i)); [lia|done].
Qed.

Lemma segments_not_nil (left index : nat) (m : Value) (items : list Doc) (d : Doc) :
  (length nils ≤ index)%nat →
  (m, items) ∈ segments left index → d ∈ items → ¬ isNil (key d).
Proof.
  revert index. induction left as [|left IH]; intros index Hle; simpl.
  - by intros ?%not_elem_of_nil.
  - destruct (sorted !! index) as [o|] eqn:Hidx; [|by intros ?%not_elem_of_nil].
    intros [[= -> ->]|Hin]%elem_of_cons Hd.
    + assert (d ∈ concat (map found_of (visited approxBucketSize index)) ∨
              d ∈ drop (index + length (concat (map found_of
                          (visited approxBucketSize index)))) sorted)
        as [Hd'|Hd'].
      { destruct left; [|by left]. by apply elem_of_app in Hd. }
      * by eapply visited_found_not_nil.
      * eapply drop_sorted_not_nil; [|done]. lia.
    + eapply (IH (index + _)%nat); [|done..]. lia.
Qed.

(** When some key is nil, the first bucket starts at [null] and with all the
    documents whose key is nil; no other document of any bucket has a nil
    key. *)
Lemma segments_nil_first (left : nat) :
  nils ≠ [] →
  ∃ more segs,
    segments (S left) 0 = (VNull, nils ++ more) :: segs ∧
    (∀ d, d ∈ more → ¬ isNil (key d)) ∧
    (∀ m items d, (m, items) ∈ segs → d ∈ items → ¬ isNil (key d)).
Proof.
  intros Hnils.
  assert (∃ o, sorted !! 0%nat = Some o ∧ isNil (key o)) as (o & Hidx & Hnil).
  { rewrite sorted_of_split. destruct nils as [|o l] eqn:Hl; [done|].
    exists o. split; [done|].
    assert (o ∈ nils) as [? _]%list_elem_of_filter by (rewrite Hl; left).
    done. }
  assert (found_of o = nils) as Hfound by (by apply found_of_nil).
  simpl. rewrite Hidx.
  rewrite (visited_head _ _ _ _ _ _ _ o Happrox Hidx). simpl.
  rewrite Hfound.
  set (os := visited (pred approxBucketSize) (length nils)).
  set (index' := length (nils ++ concat (map found_of os))).
  assert (norm_key computeValue groupByExpr o = VNull) as ->.
  { by apply norm_key_nil. }
  assert (∀ d, d ∈ concat (map found_of os) → ¬ isNil (key d)) as Hos.
  { intros d. by apply visited_found_not_nil. }
  assert (length nils ≤ index')%nat as Hle.
  { unfold index'. rewrite length_app. lia. }
  destruct left as [|left].
  - exists (concat (map found_of os) ++ drop index' sorted), [].
    split_and!.
    + by rewrite <- (assoc_L (++)).
    + intros d [Hd|Hd]%elem_of_app; [by apply Hos|].
      by eapply drop_sorted_not_nil.
    + by intros m items d ?%not_elem_of_nil.
  - eexists (concat (map found_of os)), _. split_and!; [done|done|].
    intros m items d. by apply segments_not_nil.
Qed.
End NilFacts.

(** ** Key groups of a sorted collection *)

Section KeyGroups.
Context {Doc Expr : Type} (computeValue : Doc -> Expr -> Value).
Variable groupByExpr : Expr.

Local Abbreviation key := (computeValueOptimized computeValue groupByExpr).
Local Abbreviation norm_key := (norm_key computeValue groupByExpr).
Local Abbreviation group := (group computeValue groupByExpr).
Local Abbreviation distinct_keys := (distinct_keys computeValue groupByExpr).
Local Abbreviation le := (λ a b : Doc, compare (key a) (key b) ≠ Gt).

Lemma group_cons (o : Doc) (l : list Doc) (k : Value) :
  group (o :: l) k = if decide (norm_key o = k) then o :: group l k else group l k.
Proof. unfold group. by rewrite filter_cons. Qed.

Lemma group_elem (l : list Doc) (k : Value) (o : Doc) :
  o ∈ group l k ↔ norm_key o = k ∧ o ∈ l.
Proof. unfold group. by rewrite list_elem_of_filter. Qed.

Lemma distinct_keys_elem (l : list Doc) (k : Value) :
  k ∈ distinct_keys l ↔ ∃ o, o ∈ l ∧ norm_key o = k.
Proof.
  induction l as [|o l IH]; simpl.
  - split; [by intros ?%not_elem_of_nil|]. by intros (o & ?%not_elem_of_nil & _).
  - assert (k ∈ norm_key o :: distinct_keys l ↔ ∃ o', o' ∈ o :: l ∧ norm_key o' = k)
      as Hcons.
    { rewrite elem_of_cons, IH. split.
      - intros [->|(o' & ? & ?)]; [exists o|exists o']; split; try done; by constructor.
      - intros (o' & [->|?]%elem_of_cons & ?); [by left|right; eauto]. }
    destruct (distinct_keys l) as [|k' ks] eqn:Hdk; [done|].
    destruct (decide (norm_key o = k')) as [Heq|Hne]; [|done].
    rewrite <- Hcons, <- Heq. rewrite !elem_of_cons. tauto.
Qed.

(** In a sorted list, a document whose key differs from the next one's has a
    key that no later document has. *)
Lemma sorted_fresh (o o' : Doc) (l : list Doc) :
  StronglySorted le (o :: o' :: l) → norm_key o ≠ norm_key o' →
  ∀ x, x ∈ o' :: l → norm_key x ≠ norm_key o.
Proof.
  intros Hs Hne x Hx Heq.
  apply StronglySorted_cons in Hs as [Ho Hs].
  apply StronglySorted_cons in Hs as [Ho' _].
  assert (compare (key o') (key x) ≠ Gt) as Hle.
  { apply elem_of_cons in Hx as [->|Hx]; [by rewrite (cmp_refl compare)|].
    by eapply Forall_forall in Ho'. }
  assert (compare (key o) (key o') ≠ Gt) as Hle'.
  { eapply Forall_forall in Ho; [done|left]. }
  apply Hne, compare_key_Eq.
  apply compare_key_Eq in Heq.
  assert (compare (key o') (key o) ≠ Gt) as Hge.
  { apply (cmp_le_trans (key o') (key x) (key o)); [done|by rewrite Heq]. }
  rewrite (cmp_antisym (cmp:=compare)) in Hge.
  by destruct (compare (key o) (key o')).
Qed.

Lemma map_group_cons_fresh (o : Doc) (l : list Doc) (ks : list Value) :
  (∀ k, k ∈ ks → k ≠ norm_key o) →
  map (group (o :: l)) ks = map (group l) ks.
Proof.
  intros Hks. apply map_ext_in. intros k Hk%list_elem_of_In.
  rewrite group_cons, decide_False; [done|]. intros Heq. by apply (Hks k).
Qed.

(** A sorted list is its key groups laid end to end, each key once. *)
Lemma sorted_key_groups (l : list Doc) :
  StronglySorted le l →
  NoDup (distinct_keys l) ∧ concat (map (group l) (distinct_keys l)) = l.
Proof.
  induction l as [|o l IH]; intros Hs; simpl; [split; [constructor|done]|].
  pose proof Hs as [_ Hs']%StronglySorted_cons.
  destruct (IH Hs') as [Hnd Hcat].
  destruct (distinct_keys l) as [|k ks] eqn:Hdk.
  - destruct l as [|o' l]; [|simpl in Hdk; by repeat case_match].
    split; [apply NoDup_singleton|]. simpl.
    by rewrite group_cons, decide_True.
  - destruct l as [|o' l]; [done|].
    assert (k = norm_key o') as ->.
    { simpl in Hdk. repeat case_match; by simplify_eq. }
    destruct (decide (norm_key o = norm_key o')) as [Heq|Hne].
    + split; [done|]. simpl.
      rewrite group_cons, decide_True by done.
      rewrite map_group_cons_fresh.
      * simpl in Hcat. by rewrite <- app_comm_cons, Hcat.
      * intros k Hk. rewrite Heq. apply NoDup_cons in Hnd as [Hnin _].
        by intros ->.
    + pose proof (sorted_fresh o o' l Hs Hne) as Hfresh.
      assert (∀ k, k ∈ norm_key o' :: ks → k ≠ norm_key o) as Hks.
      { intros k Hk. rewrite <- Hdk in Hk.
        apply distinct_keys_elem in Hk as (x & Hx & <-). by apply Hfresh. }
      split.
      * apply NoDup_cons. split; [|done]. intros Hin. by apply (Hks _ Hin).
      * change (concat (map (group (o :: o' :: l)) (norm_key o :: norm_key o' :: ks)))
          with (group (o :: o' :: l) (norm_key o) ++
                concat (map (group (o :: o' :: l)) (norm_key o' :: ks))).
        rewrite map_group_cons_fresh by done. rewrite Hcat.
        rewrite group_cons, decide_True by done.
        assert (group (o' :: l) (norm_key o) = []) as ->; [|done].
        apply filter_none. intros x Hx. by apply Hfresh.
Qed.
End KeyGroups.

(** ** The buckets as chunks of key groups *)

Lemma filter_ext_elem {A : Type} (P Q : A → Prop)
    `{!∀ a, Decision (P a)} `{!∀ a, Decision (Q a)} (l : list A) :
  (∀ x, x ∈ l → P x ↔ Q x) → filter P l = filter Q l.
Proof.
  induction l as [|x l IH]; intros HPQ; [done|].
  rewrite !filter_cons, IH by (intros y Hy; apply HPQ; by right).
  destruct (decide (P x)) as [HP|HP], (decide (Q x)) as [HQ|HQ]; try done.
  - destruct HQ. apply HPQ; [left|done].
  - destruct HP. apply HPQ; [left|done].
Qed.

Section Refinement.
Context {Doc Expr : Type} (computeValue : Doc -> Expr -> Value).
Variables (groupByExpr : Expr) (coll : list Doc) (approxBucketSize : nat).
Hypothesis Happrox : approxBucketSize ≠ 0%nat.
Hypothesis Hnc : no_collision computeValue groupByExpr coll.

Local Abbreviation key := (computeValueOptimized computeValue groupByExpr).
Local Abbreviation norm_key := (norm_key computeValue groupByExpr).
Local Abbreviation group := (group computeValue groupByExpr).
Local Abbreviation distinct_keys := (distinct_keys computeValue groupByExpr).
Local Abbreviation sorted := (sorted_of computeValue groupByExpr coll).
Local Abbreviation grouped := (grouped_of computeValue groupByExpr coll).
Local Abbreviation remaining := (remaining_of computeValue groupByExpr coll).
Local Abbreviation found_of := (found_of computeValue groupByExpr grouped remaining).
Local Abbreviation visited := (visited computeValue groupByExpr grouped remaining sorted).
Local Abbreviation segments :=
  (segments computeValue groupByExpr grouped remaining sorted approxBucketSize).
Local Abbreviation ahead := (ahead computeValue groupByExpr coll).

(** Without collisions a lookup finds the documents of one key. *)
Lemma found_of_group (o : Doc) : o ∈ coll → found_of o = group coll (norm_key o).
Proof.
  intros Ho. destruct (decide (isNil (key o))) as [Hnil|Hnil].
  - rewrite (found_of_nil _ _ _ _ Hnil).
    apply filter_ext_elem. intros d _.
    rewrite (proj2 (norm_key_nil _ _ o) Hnil). symmetry. apply norm_key_nil.
  - rewrite (found_of_not_nil _ _ _ _ Ho Hnil).
    apply filter_ext_elem. intros d Hd.
    rewrite (norm_key_not_nil _ _ o Hnil). split.
    + intros [Hd' Heq]. rewrite (norm_key_not_nil _ _ d Hd'). by apply Hnc.
    + intros Heq.
      assert (¬ isNil (key d)) as Hd'.
      { intros Hd'%norm_key_nil. rewrite Hd' in Heq. by rewrite <- Heq in Hnil. }
      rewrite (norm_key_not_nil _ _ d Hd') in Heq. by rewrite Heq.
Qed.

Lemma group_sorted (k : Value) : group sorted k = group coll k.
Proof.
  apply (sortBy_filter key (λ o, norm_key o = k)).
  - intros a b Ha Hb. rewrite (proj2 (compare_key_Eq _ _ a b)); [done|congruence].
  - intros a b Ha Hb.
    assert (norm_key a = norm_key b) as Heq by congruence.
    unfold norm_key in Heq.
    by destruct (key a), (key b).
Qed.

Lemma sorted_groups :
  concat (map (group coll) (distinct_keys sorted)) = sorted.
Proof.
  destruct (sorted_key_groups computeValue groupByExpr sorted) as [_ Hcat].
  { apply sortBy_StronglySorted. }
  rewrite <- Hcat at 2. f_equal. apply map_ext. intros k. by rewrite group_sorted.
Qed.

Lemma ahead_start : ahead 0 (distinct_keys sorted).
Proof.
  split; [by rewrite sorted_groups|].
  intros k (o & Ho & Hk)%distinct_keys_elem. exists o. split; [|done].
  by apply (sorted_of_elem_of computeValue groupByExpr).
Qed.

Lemma ahead_nil (index : nat) : ahead index [] → sorted !! index = None.
Proof.
  intros [Hdrop _]. simpl in Hdrop.
  apply lookup_ge_None. apply (f_equal length) in Hdrop.
  rewrite length_drop in Hdrop. simpl in Hdrop. lia.
Qed.

Lemma ahead_cons (index : nat) (k : Value) (ks : list Value) :
  ahead index (k :: ks) →
  ∃ o, sorted !! index = Some o ∧ norm_key o = k ∧ found_of o = group coll k ∧
       ahead (index + length (group coll k)) ks.
Proof.
  intros [Hdrop Hks].
  destruct (Hks k) as (o' & Ho' & Hk'); [left|].
  assert (o' ∈ group coll k) as Hin by (by apply group_elem).
  simpl in Hdrop.
  destruct (group coll k) as [|o g] eqn:Hg; [by apply not_elem_of_nil in Hin|].
  assert (o ∈ group coll k) as [Hko Hoc]%group_elem by (rewrite Hg; left).
  exists o. split_and!.
  - rewrite <- (Nat.add_0_r index), <- lookup_drop, Hdrop. done.
  - done.
  - rewrite found_of_group by done. by rewrite Hko.
  - split; [|intros k' Hk''; apply Hks; by right].
    rewrite <- drop_drop, Hdrop.
    by rewrite <- Hg, drop_app_length.
Qed.

Lemma visited_groups (steps index : nat) (ks : list Value) :
  ahead index ks →
  concat (map found_of (visited steps index)) =
    concat (map (group coll) (take steps ks)) ∧
  ahead (index + length (concat (map (group coll) (take steps ks)))) (drop steps ks).
Proof.
  revert index ks. induction steps as [|steps IH]; intros index ks Hks; simpl.
  - by rewrite Nat.add_0_r.
  - destruct ks as [|k ks]; simpl.
    + rewrite (ahead_nil _ Hks). simpl. by rewrite Nat.add_0_r.
    + destruct (ahead_cons _ _ _ Hks) as (o & -> & Hk & Hfound & Hks').
      simpl. rewrite Hfound.
      destruct (IH _ _ Hks') as [-> Hahead].
      split; [done|]. by rewrite length_app, Nat.add_assoc.
Qed.

(** The items of the buckets are the chunks of the keys ahead, each key
    standing for its group. *)
Lemma segments_chunks (left index : nat) (ks : list Value) :
  ahead index ks →
  map snd (segments left index) =
  map (λ c, concat (map (group coll) c)) (chunk_keys left approxBucketSize ks).
Proof.
  revert index ks. induction left as [|left IH]; intros index ks Hks; [done|].
  simpl. destruct ks as [|k ks].
  { by rewrite (ahead_nil _ Hks). }
  destruct (ahead_cons _ _ _ Hks) as (o & -> & _).
  destruct (visited_groups approxBucketSize _ _ Hks) as [-> Hahead].
  simpl. destruct left as [|left].
  - simpl. destruct Hahead as [-> _].
    rewrite <- concat_app, <- map_app. by rewrite take_drop.
  - rewrite (IH _ _ Hahead). done.
Qed.
End Refinement.

(** ** Chunks *)

Section ChunkFacts.
Context {A : Type}.
Implicit Types (ks c : list A) (k : A).

Lemma chunk_keys_cons (left n : nat) k ks :
  chunk_keys (S (S left)) n (k :: ks) =
  take n (k :: ks) :: chunk_keys (S left) n (drop n (k :: ks)).
Proof. done. Qed.

Lemma chunk_keys_concat (left n : nat) ks :
  left ≠ 0%nat → concat (chunk_keys left n ks) = ks.
Proof.
  revert ks. induction left as [|left IH]; intros ks Hleft; [done|].
  simpl. destruct ks as [|k ks]; [done|].
  destruct left as [|left]; [simpl; by rewrite app_nil_r|].
  change (concat (take n (k :: ks) :: chunk_keys (S left) n (drop n (k :: ks))))
    with (take n (k :: ks) ++ concat (chunk_keys (S left) n (drop n (k :: ks)))).
  by rewrite IH, take_drop.
Qed.

Lemma chunk_keys_elem (left n : nat) ks c k :
  c ∈ chunk_keys left n ks → k ∈ c → k ∈ ks.
Proof.
  intros Hc Hk. destruct left as [|left]; [by apply not_elem_of_nil in Hc|].
  rewrite <- (chunk_keys_concat (S left) n ks) by done.
  rewrite <- (map_id (chunk_keys (S left) n ks)).
  apply (elem_of_concat_map (λ c, c)). by exists c.
Qed.

Lemma chunk_keys_disjoint (left n : nat) ks (i j : nat) c c' k :
  NoDup ks →
  chunk_keys left n ks !! i = Some c → chunk_keys left n ks !! j = Some c' →
  k ∈ c → k ∈ c' → i = j.
Proof.
  revert ks i j. induction left as [|left IH]; intros ks i j Hnd; [done|].
  destruct ks as [|k0 ks]; [done|].
  destruct left as [|left].
  { destruct i, j; try done. }
  rewrite chunk_keys_cons.
  rewrite <- (take_drop n (k0 :: ks)) in Hnd.
  apply NoDup_app in Hnd as (_ & Hdisj & Hnd).
  destruct i as [|i], j as [|j]; cbn -[chunk_keys take drop]; try done.
  - intros [= <-] Hc' Hk Hk'. destruct (Hdisj k Hk).
    apply list_elem_of_lookup_2 in Hc'. by eapply chunk_keys_elem.
  - intros Hc [= <-] Hk Hk'. destruct (Hdisj k Hk').
    apply list_elem_of_lookup_2 in Hc. by eapply chunk_keys_elem.
  - intros Hc Hc' Hk Hk'. f_equal. by eapply (IH (drop n (k0 :: ks))).
Qed.
End ChunkFacts.

Lemma concat_map_concat {A B : Type} (g : A → list B) (cs : list (list A)) :
  concat (map (λ c, concat (map g c)) cs) = concat (map g (concat cs)).
Proof.
  induction cs as [|c cs IH]; [done|].
  simpl. by rewrite map_app, concat_app, IH.
Qed.

(** * The claims about [$bucketAuto] *)

Lemma gt_zero_true (b : BucketsField) :
  gt_zero b = true ↔ ∃ n, ToNumber b = Some n ∧ 0 < n.
Proof.
  unfold gt_zero. destruct (ToNumber b) as [n|].
  - rewrite bool_decide_eq_true. split; [by exists n|by intros (? & [= <-] & ?)].
  - split; [done|by intros (? & ? & _)].
Qed.

Section Claims.
Context {Doc Expr : Type} (computeValue : Doc -> Expr -> Value).

Local Abbreviation bucketAuto := (bucketAuto computeValue).
Local Abbreviation plain_keys := (plain_keys computeValue).

Lemma segments_head_lookup groupByExpr grouped remaining (sorted : list Doc)
    approx left index seg segs :
  segments computeValue groupByExpr grouped remaining sorted approx left index
    = seg :: segs →
  is_Some (sorted !! index).
Proof. destruct left; simpl; [done|]. by destruct (sorted !! index). Qed.

(** C10: every bucket the stage emits holds at least one document, and the
    documents it holds are documents of the input; this is so for every
    bucket count the stage accepts, also one above the size of the
    collection.  The keys are plain: on a key that names an inherited
    property the stage throws and emits no bucket at all. *)
Theorem bucketAuto_no_empty_bucket (coll : list Doc) (expr : BucketAutoSpec) :
  gt_zero (buckets expr) = true →
  plain_keys (groupBy expr) coll →
  ∃ bs, bucketAuto coll expr = Ok bs ∧
    ∀ b, b ∈ bs → bucketItems b ≠ [] ∧ ∀ d, d ∈ bucketItems b → d ∈ coll.
Proof.
  intros (n & Hn & Hpos)%gt_zero_true Hplain.
  eexists. split; [by apply bucketAuto_Ok|].
  intros b (i & Hb)%list_elem_of_lookup_1.
  apply link_lookup in Hb as (m & items & Hseg & ->). simpl.
  apply list_elem_of_lookup_2 in Hseg.
  by eapply (segments_items computeValue (groupBy expr) coll
               (approx_of coll n) (approx_of_ne_0 coll n)).
Qed.

(** C9: on the empty collection the stage emits no bucket and raises no
    error, whatever accepted bucket count it is given. *)
Theorem bucketAuto_empty_collection (expr : BucketAutoSpec) :
  gt_zero (buckets expr) = true →
  bucketAuto [] expr = Ok [].
Proof.
  intros Hgt. unfold bucketAuto. rewrite Hgt. simpl.
  unfold transform. simpl.
  by destruct (Z.to_nat (default 0 (ToNumber (buckets expr)))).
Qed.

Lemma buckets_of_not_nil (groupByExpr : Expr) (coll : list Doc) (n : Z) :
  0 < n → coll ≠ [] → buckets_of computeValue groupByExpr coll n ≠ [].
Proof.
  intros Hpos Hcoll. unfold buckets_of.
  destruct (Z.to_nat n) as [|left] eqn:Hleft; [lia|].
  destruct (sorted_of computeValue groupByExpr coll) as [|o rest] eqn:Hsorted.
  { destruct Hcoll. apply length_zero_iff_nil.
    rewrite <- (sortBy_length (computeValueOptimized computeValue groupByExpr)
                  coll compare).
    change (length (sorted_of computeValue groupByExpr coll) = 0%nat).
    by rewrite Hsorted. }
  done.
Qed.

(** The stage emits at most as many buckets as its spec asks for. *)
Lemma bucketAuto_at_most_N (coll : list Doc) (expr : BucketAutoSpec) (n : Z) :
  buckets expr = BNum n → 0 < n →
  plain_keys (groupBy expr) coll →
  ∃ bs, bucketAuto coll expr = Ok bs ∧ Z.of_nat (length bs) ≤ n.
Proof.
  intros Hn Hpos Hplain. eexists. split.
  { apply bucketAuto_Ok; [by rewrite Hn|done..]. }
  unfold buckets_of. rewrite link_length.
  pose proof (segments_length computeValue (groupBy expr) coll
                (approx_of coll n) (approx_of_ne_0 coll n) (Z.to_nat n) 0).
  lia.
Qed.

(** C3: for an accepted bucket count and plain keys, the [_id] of every
    emitted bucket has its own [min] and [max]; the [min] of a bucket is the
    [max] of the bucket before it; and when the collection is not empty there
    is a last bucket, whose [max] is the key of an input document that no key
    of the input exceeds. *)
Theorem bucketAuto_boundaries_chain (coll : list Doc) (expr : BucketAutoSpec) :
  gt_zero (buckets expr) = true →
  plain_keys (groupBy expr) coll →
  ∃ bs, bucketAuto coll expr = Ok bs ∧
    (∀ b, b ∈ bs → is_Some (own_min (_id b)) ∧ is_Some (own_max (_id b))) ∧
    (∀ i b b', bs !! i = Some b → bs !! S i = Some b' →
       own_min (_id b') = own_max (_id b)) ∧
    (coll ≠ [] →
     ∃ b o, last bs = Some b ∧ o ∈ coll ∧
       own_max (_id b) = Some (computeValue o (groupBy expr)) ∧
       ∀ d, d ∈ coll →
         compare (computeValue d (groupBy expr)) (computeValue o (groupBy expr)) ≠ Gt).
Proof.
  intros (n & Hn & Hpos)%gt_zero_true Hplain.
  eexists. split; [by apply bucketAuto_Ok|].
  pose proof (buckets_of_not_nil (groupBy expr) coll n Hpos) as Hne.
  unfold buckets_of in *.
  set (segs := segments _ _ _ _ _ _ _ _) in *.
  assert (segs ≠ [] → ∃ o, last (sorted_of computeValue (groupBy expr) coll) = Some o)
    as Hlast.
  { destruct segs as [|seg segs'] eqn:Hsegs; [done|]. intros _.
    apply segments_head_lookup in Hsegs as [o Ho].
    apply last_is_Some. intros Hnil. by rewrite Hnil in Ho. }
  split_and!.
  - intros b (i & Hb)%list_elem_of_lookup_1.
    apply link_lookup in Hb as (m & items & Hseg & ->). simpl. split; [done|].
    destruct (segs !! S i) as [[m' ?]|]; [done|].
    destruct Hlast as [o ->]; [|done]. intros Hnil. by rewrite Hnil in Hseg.
  - intros i b b' Hb Hb'.
    apply link_lookup in Hb as (m & items & Hseg & ->).
    apply link_lookup in Hb' as (m' & items' & Hseg' & ->). simpl.
    by rewrite Hseg'.
  - intros Hcoll. specialize (Hne Hcoll).
    destruct (last (link _ segs)) as [b|] eqn:Hb;
      [|by apply last_None in Hb].
    rewrite last_lookup, link_length in Hb.
    apply link_lookup in Hb as (m & items & Hseg & ->). simpl.
    rewrite (lookup_ge_None_2 segs (S (pred (length segs)))) by lia.
    destruct Hlast as [o Ho]; [intros Hnil; by rewrite Hnil in Hseg|].
    rewrite Ho. simpl.
    apply sortBy_last_greatest in Ho as [Hin Hmax]. eexists _, o. done.
Qed.

(** C5, as the code has it: when some document has a nil key (the bucket
    count being accepted and the keys plain), the first bucket has [min]
    [null] and begins with all the documents whose key is nil, in input
    order; the documents that follow them in that bucket, and the documents
    of every later bucket, have keys that are not nil. *)
Theorem bucketAuto_nil_keys_first (coll : list Doc) (expr : BucketAutoSpec) :
  gt_zero (buckets expr) = true →
  plain_keys (groupBy expr) coll →
  (∃ d, d ∈ coll ∧ isNil (computeValue d (groupBy expr))) →
  ∃ b rest more,
    bucketAuto coll expr = Ok (b :: rest) ∧
    own_min (_id b) = Some VNull ∧
    bucketItems b = filter (λ d, isNil (computeValue d (groupBy expr))) coll ++ more ∧
    (∀ d, d ∈ more → ¬ isNil (computeValue d (groupBy expr))) ∧
    (∀ b' d, b' ∈ rest → d ∈ bucketItems b' → ¬ isNil (computeValue d (groupBy expr))).
Proof.
  intros (n & Hn & Hpos)%gt_zero_true Hplain (d0 & Hd0 & Hnil0).
  rewrite (bucketAuto_Ok _ _ _ n Hn Hpos Hplain). unfold buckets_of.
  destruct (Z.to_nat n) as [|left] eqn:Hleft; [lia|].
  destruct (segments_nil_first computeValue (groupBy expr) coll (approx_of coll n)
              (approx_of_ne_0 coll n) left) as (more & segs & -> & Hmore & Hsegs).
  { intros Hnils. eapply (filter_nil_not_elem_of _ _ d0); [exact Hnils|done..]. }
  simpl. eexists _, _, more. split_and!; [done|done|done|done|].
  intros b' d (i & Hb')%list_elem_of_lookup_1.
  apply link_lookup in Hb' as (m & items & Hseg%list_elem_of_lookup_2 & ->).
  simpl. intros Hd. by eapply Hsegs.
Qed.


(** The items of the buckets when no two different keys share a property
    string. *)
Lemma bucketAuto_items (coll : list Doc) (expr : BucketAutoSpec) (N : Z) :
  buckets expr = BNum N → 0 < N →
  plain_keys (groupBy expr) coll →
  no_collision computeValue (groupBy expr) coll →
  ∃ bs, bucketAuto coll expr = Ok bs ∧
    map bucketItems bs =
    map (λ ks, concat (map (group computeValue (groupBy expr) coll) ks))
      (chunk_keys (Z.to_nat N) (approx_of coll N)
         (distinct_keys computeValue (groupBy expr)
            (sorted_of computeValue (groupBy expr) coll))).
Proof.
  intros HN Hpos Hplain Hnc. eexists. split.
  { apply bucketAuto_Ok; [by rewrite HN|done..]. }
  unfold buckets_of. rewrite link_items.
  apply (segments_chunks computeValue (groupBy expr) coll (approx_of coll N)
           (approx_of_ne_0 coll N) Hnc).
  by apply ahead_start.
Qed.

(** X13: for an integer bucket count and plain keys without collisions the
    buckets, laid end to end, are the sorted collection: every input document
    is in exactly one bucket. *)
Lemma bucketAuto_partition_no_collision (coll : list Doc) (expr : BucketAutoSpec)
    (N : Z) :
  buckets expr = BNum N → 0 < N →
  plain_keys (groupBy expr) coll →
  no_collision computeValue (groupBy expr) coll →
  ∃ bs, bucketAuto coll expr = Ok bs ∧
    concat (map bucketItems bs) = sorted_of computeValue (groupBy expr) coll ∧
    concat (map bucketItems bs) ≡ₚ coll.
Proof.
  intros HN Hpos Hplain Hnc.
  destruct (bucketAuto_items coll expr N HN Hpos Hplain Hnc) as (bs & Hbs & Hitems).
  exists bs. split; [done|].
  assert (concat (map bucketItems bs) = sorted_of computeValue (groupBy expr) coll)
    as Heq.
  { rewrite Hitems, concat_map_concat, chunk_keys_concat by lia.
    by apply sorted_groups. }
  split; [done|]. rewrite Heq. apply sortBy_Permutation.
Qed.

(** X14: for an integer bucket count and plain keys without collisions two
    documents with the same key are in the same bucket. *)
Lemma bucketAuto_equal_keys_no_collision (coll : list Doc) (expr : BucketAutoSpec)
    (N : Z) :
  buckets expr = BNum N → 0 < N →
  plain_keys (groupBy expr) coll →
  no_collision computeValue (groupBy expr) coll →
  ∃ bs, bucketAuto coll expr = Ok bs ∧
    ∀ i j b b' x y,
      bs !! i = Some b → bs !! j = Some b' →
      x ∈ bucketItems b → y ∈ bucketItems b' →
      norm_key computeValue (groupBy expr) x = norm_key computeValue (groupBy expr) y →
      i = j.
Proof.
  intros HN Hpos Hplain Hnc.
  destruct (bucketAuto_items coll expr N HN Hpos Hplain Hnc) as (bs & Hbs & Hitems).
  exists bs. split; [done|].
  set (chunks := chunk_keys _ _ _) in Hitems.
  assert (∀ i b x, bs !! i = Some b → x ∈ bucketItems b →
            ∃ c, chunks !! i = Some c ∧ norm_key computeValue (groupBy expr) x ∈ c)
    as Hchunk.
  { intros i b x Hb Hx.
    assert (map bucketItems bs !! i = Some (bucketItems b)) as Hi.
    { change (map bucketItems bs) with (bucketItems <$> bs).
      by rewrite list_lookup_fmap, Hb. }
    rewrite Hitems in Hi.
    change (map ?f chunks) with (f <$> chunks) in Hi.
    rewrite list_lookup_fmap in Hi.
    destruct (chunks !! i) as [c|]; [|done]. simpl in Hi. simplify_eq.
    exists c. split; [done|].
    rewrite <- Hi in Hx. apply elem_of_concat_map in Hx as (k & Hk & Hxk).
    apply group_elem in Hxk as [-> _]. done. }
  intros i j b b' x y Hb Hb' Hx Hy Heq.
  destruct (Hchunk i b x Hb Hx) as (c & Hc & Hkc).
  destruct (Hchunk j b' y Hb' Hy) as (c' & Hc' & Hkc').
  rewrite <- Heq in Hkc'.
  eapply (chunk_keys_disjoint _ _ _ i j c c'); [|done..].
  apply sorted_key_groups, sortBy_StronglySorted.
Qed.

(** C2, as the code has it: for an integer bucket count [N] the stage sorts
    the input on the key and deals the distinct keys, in ascending order, to
    the buckets, [max 1 (round (size / N))] keys to each, the [N]-th bucket
    taking all the keys that are left; a bucket holds the documents of its
    keys.  This is for plain keys no two of which, when they differ, share a
    property string. *)
Theorem bucketAuto_chunks_of_key_groups (coll : list Doc) (expr : BucketAutoSpec)
    (N : Z) :
  buckets expr = BNum N → 0 < N →
  plain_keys (groupBy expr) coll →
  no_collision computeValue (groupBy expr) coll →
  ∃ bs, bucketAuto coll expr = Ok bs ∧
    map bucketItems bs =
    map (λ ks, concat (map (group computeValue (groupBy expr) coll) ks))
      (chunk_keys (Z.to_nat N)
         (Z.to_nat (Z.max 1 (Math_round_div (Z.of_nat (length coll)) N)))
         (distinct_keys computeValue (groupBy expr)
            (sortBy coll (λ o, computeValue o (groupBy expr)) compare))).
Proof.
  intros HN Hpos Hplain Hnc. by apply bucketAuto_items.
Qed.
End Claims.

(** C2, against the claim as stated: seven documents keyed [1], [1], [2],
    [3], [4], [5] and [6], and five buckets.  The stage emits the two
    documents keyed [1], then the documents keyed [2], [3] and [4], one to a
    bucket, then the documents keyed [5] and [6] together.  The claim chunks
    the sorted documents in runs of [ceil (7 / 5) = 2].  No part of the
    amended claim can be left out: runs of [round (7 / 5) = 1] documents part
    the two documents keyed [1]; [ceil (7 / 5) = 2] keys to a bucket put the
    keys [1] and [2] together; and one key to a bucket throughout makes six
    buckets, where the stage gives its fifth bucket the keys that are left. *)
Lemma bucketAuto_not_runs_of_ceil :
  ∃ bs,
    bucketAuto computeValue_field docs_repeated_keys (mkSpec "$k"%string (BNum 5))
      = Ok bs ∧
    map bucketItems bs =
      [[doc_k 0 (VNum 1); doc_k 1 (VNum 1)]; [doc_k 2 (VNum 2)];
       [doc_k 3 (VNum 3)]; [doc_k 4 (VNum 4)];
       [doc_k 5 (VNum 5); doc_k 6 (VNum 6)]] ∧
    chunks_of 7 (Z.to_nat (ceil_div 7 5))
      (sortBy docs_repeated_keys (λ o, computeValue_field o "$k") compare) =
      [[doc_k 0 (VNum 1); doc_k 1 (VNum 1)];
       [doc_k 2 (VNum 2); doc_k 3 (VNum 3)];
       [doc_k 4 (VNum 4); doc_k 5 (VNum 5)]; [doc_k 6 (VNum 6)]] ∧
    map bucketItems bs ≠
      chunks_of 7 (Z.to_nat (ceil_div 7 5))
        (sortBy docs_repeated_keys (λ o, computeValue_field o "$k") compare) ∧
    map bucketItems bs ≠
      chunks_of 7 (Z.to_nat (Z.max 1 (Math_round_div 7 5)))
        (sortBy docs_repeated_keys (λ o, computeValue_field o "$k") compare) ∧
    map bucketItems bs ≠
      map (λ ks, concat (map (group computeValue_field "$k"%string
                                docs_repeated_keys) ks))
        (chunk_keys 5 (Z.to_nat (ceil_div 7 5))
           (distinct_keys computeValue_field "$k"%string
              (sortBy docs_repeated_keys (λ o, computeValue_field o "$k") compare))) ∧
    map bucketItems bs ≠
      map (λ ks, concat (map (group computeValue_field "$k"%string
                                docs_repeated_keys) ks))
        (chunks_of 7 (Z.to_nat (Z.max 1 (Math_round_div 7 5)))
           (distinct_keys computeValue_field "$k"%string
              (sortBy docs_repeated_keys (λ o, computeValue_field o "$k") compare))).
Proof. eexists. split; [vm_compute; reflexivity|]. by vm_compute. Qed.

(** C5, against the claim as stated: with keys [null], [1], [2], [3] and two
    buckets, the bucket of the [null] key also holds the document keyed
    [1]. *)
Lemma bucketAuto_nil_bucket_shared :
  ∃ b rest,
    bucketAuto computeValue_field docs_null_first (mkSpec "$k"%string (BNum 2))
      = Ok (b :: rest) ∧
    bucketItems b = [[("k"%string, VNull)]; [("k"%string, VNum 1)]] ∧
    isNil (computeValue_field [("k"%string, VNum 1)] "$k") = false.
Proof. do 2 eexists. split; [vm_compute; reflexivity|]. by vm_compute. Qed.


(** C1 at the collection keyed [1], ["01"], [1], [5], [7], ["5"] with six
    buckets: the sorted collection is the documents 0, 2, 3, 4, 1, 5, and four
    buckets come out, holding the documents 0 and 2, then 3 and 5, then 1,
    then 3 and 5 again.  Document 4 is in no bucket, documents 3 and 5 are in
    two, and the buckets together are not a rearrangement of the input. *)
Theorem bucketAuto_mixed_keys_not_partition :
  ∃ bs,
    bucketAuto computeValue_field docs_mixed_keys (mkSpec "$k"%string (BNum 6))
      = Ok bs ∧
    map bucketItems bs =
      [[doc_k 0 (VNum 1); doc_k 2 (VNum 1)];
       [doc_k 3 (VNum 5); doc_k 5 (VStr "5")];
       [doc_k 1 (VStr "01")];
       [doc_k 3 (VNum 5); doc_k 5 (VStr "5")]] ∧
    ¬ (doc_k 4 (VNum 7) ∈ concat (map bucketItems bs)) ∧
    ¬ (concat (map bucketItems bs) ≡ₚ docs_mixed_keys).
Proof.
  eexists. split; [vm_compute; reflexivity|]. simpl. split_and!; [done| |].
  - intros Hin. repeat (apply elem_of_cons in Hin as [?|Hin]; [done|]).
    by apply not_elem_of_nil in Hin.
  - intros Hperm%Permutation_length. done.
Qed.

(** C4 at the same collection: the document keyed [5] is in the second
    bucket and in the fourth. *)
Theorem bucketAuto_mixed_keys_span :
  ∃ bs b2 b4,
    bucketAuto computeValue_field docs_mixed_keys (mkSpec "$k"%string (BNum 6))
      = Ok bs ∧
    bs !! 1%nat = Some b2 ∧ bs !! 3%nat = Some b4 ∧
    computeValue_field (doc_k 3 (VNum 5)) "$k" = VNum 5 ∧
    doc_k 3 (VNum 5) ∈ bucketItems b2 ∧ doc_k 3 (VNum 5) ∈ bucketItems b4.
Proof.
  do 3 eexists. split; [vm_compute; reflexivity|]. simpl.
  split_and!; [done..|left|left].
Qed.

(** C7: on the six documents [{_id: 1}] to [{_id: 6}], with
    [groupBy: "$_id"] and [buckets: 3], the stage emits exactly three buckets,
    with [_id] [{min: 1, max: 3}], [{min: 3, max: 5}] and [{min: 5, max: 6}],
    and the counts of the default output add up to six. *)
Theorem bucketAuto_six_documents :
  ∃ b1 b2 b3,
    bucketAuto computeValue_field docs_1_to_6 (mkSpec "$_id"%string (BNum 3))
      = Ok [b1; b2; b3] ∧
    _id b1 = mkBoundaries (Some (VNum 1)) (Some (VNum 3)) ∧
    _id b2 = mkBoundaries (Some (VNum 3)) (Some (VNum 5)) ∧
    _id b3 = mkBoundaries (Some (VNum 5)) (Some (VNum 6)) ∧
    count b1 + count b2 + count b3 = 6.
Proof. do 3 eexists. split; [vm_compute; reflexivity|]. by vm_compute. Qed.

(** * A test of [$sort]

    [$sort] is not among the sources; the file of the stage carries tests of
    it.  The test "can sort letters ignoring punctuations" sorts four names
    and expects them in an order that a stable sort gives only under a
    collation that puts ["Hello,there"] strictly before ["Hello  there"]:
    were the two equal under the collation, as they are when punctuation and
    spaces are ignored, a stable sort would leave the third and the fourth
    name as they stand. *)

Lemma stable_sort_hello_order (collate : string → string → comparison)
    `{!Comparator collate} :
  stable_sort collate
    ["Hello there"; "Hello,there"; "Hello  there"; "Hello,there"]%string =
  ["Hello there"; "Hello,there"; "Hello,there"; "Hello  there"]%string →
  collate "Hello,there" "Hello  there" = Lt.
Proof.
  intros Hsort.
  pose proof (stable_sort_StronglySorted collate
                ["Hello there"; "Hello,there"; "Hello  there"; "Hello,there"]%string)
    as Hsorted.
  pose proof (stable_sort_stable collate "Hello,there"%string
                ["Hello there"; "Hello,there"; "Hello  there"; "Hello,there"]%string)
    as Hstable.
  rewrite Hsort in Hsorted, Hstable.
  apply StronglySorted_cons in Hsorted as [_ Hsorted].
  apply StronglySorted_cons in Hsorted as [_ Hsorted].
  apply StronglySorted_cons in Hsorted as [Hle _].
  apply Forall_cons in Hle as [Hle _].
  rewrite !filter_cons in Hstable. simpl in Hstable.
  rewrite (cmp_refl collate) in Hstable.
  destruct (collate "Hello,there" "Hello  there") eqn:Hc; [|done|done].
  destruct (collate "Hello,there" "Hello there"); simpl in Hstable;
    repeat case_decide; simplify_eq.
Qed.

(** * Further properties of [$bucketAuto] *)

(** ** Sorted lists *)

Lemma elem_of_concat {A : Type} (ls : list (list A)) (x : A) :
  x ∈ concat ls ↔ ∃ l, l ∈ ls ∧ x ∈ l.
Proof.
  rewrite <- (map_id ls) at 1. apply (elem_of_concat_map (λ c, c)).
Qed.

Section SortedFacts.
Context {A : Type} (R : relation A).

Lemma StronglySorted_lookup_lt (l : list A) (i j : nat) (x y : A) :
  StronglySorted R l → (i < j)%nat → l !! i = Some x → l !! j = Some y → R x y.
Proof.
  intros Hs Hij Hx Hy.
  rewrite <- (take_drop j l) in Hs, Hx.
  rewrite lookup_app_l in Hx by (rewrite length_take; apply lookup_lt_Some in Hy; lia).
  eapply StronglySorted_app_1_elem_of; [done|by eapply list_elem_of_lookup_2|].
  apply list_elem_of_lookup. exists 0%nat. by rewrite lookup_drop, Nat.add_0_r.
Qed.

Lemma StronglySorted_concat_lt (ls : list (list A)) (i j : nat) l l' x y :
  StronglySorted R (concat ls) → (i < j)%nat →
  ls !! i = Some l → ls !! j = Some l' → x ∈ l → y ∈ l' → R x y.
Proof.
  revert i j. induction ls as [|l0 ls IH]; intros i j Hs Hij Hl Hl' Hx Hy; [done|].
  simpl in Hs. destruct j as [|j]; [lia|]. destruct i as [|i]; simpl in Hl, Hl'.
  - simplify_eq. eapply StronglySorted_app_1_elem_of; [done..|].
    apply elem_of_concat.
    exists l'. split; [by eapply list_elem_of_lookup_2|done].
  - apply StronglySorted_app_1_r in Hs. eapply (IH i j); [done|lia|done..].
Qed.

Lemma StronglySorted_concat_head (ls : list (list A)) (i : nat) h t x :
  StronglySorted R (concat ls) → ls !! i = Some (h :: t) → x ∈ t → R h x.
Proof.
  revert i. induction ls as [|l0 ls IH]; intros i Hs Hl Hx; [done|].
  simpl in Hs. destruct i as [|i]; simpl in Hl.
  - simplify_eq. apply StronglySorted_app_1_l in Hs.
    apply StronglySorted_cons in Hs as [Hh _]. by eapply Forall_forall in Hh.
  - apply StronglySorted_app_1_r in Hs. by eapply IH.
Qed.
End SortedFacts.

Lemma compare_norm_l (a b : Value) :
  compare (if isNil a then VNull else a) b = compare a b.
Proof. by destruct a. Qed.

Lemma compare_norm_r (a b : Value) :
  compare a (if isNil b then VNull else b) = compare a b.
Proof. by destruct a, b. Qed.

Lemma compare_norm (a b : Value) :
  compare (if isNil a then VNull else a) (if isNil b then VNull else b) = compare a b.
Proof. by rewrite compare_norm_l, compare_norm_r. Qed.

(** ** The order of the boundaries *)

Section OrderFacts.
Context {Doc Expr : Type} (computeValue : Doc -> Expr -> Value).
Variables (groupByExpr : Expr) (coll : list Doc) (approxBucketSize : nat).
Hypothesis Happrox : approxBucketSize ≠ 0%nat.

Local Abbreviation key := (computeValueOptimized computeValue groupByExpr).
Local Abbreviation norm_key := (norm_key computeValue groupByExpr).
Local Abbreviation sorted := (sorted_of computeValue groupByExpr coll).
Local Abbreviation grouped := (grouped_of computeValue groupByExpr coll).
Local Abbreviation remaining := (remaining_of computeValue groupByExpr coll).
Local Abbreviation found_of := (found_of computeValue groupByExpr grouped remaining).
Local Abbreviation visited := (visited computeValue groupByExpr grouped remaining sorted).
Local Abbreviation segments :=
  (segments computeValue groupByExpr grouped remaining sorted approxBucketSize).

Lemma compare_norm_key (a b : Doc) :
  compare (norm_key a) (norm_key b) = compare (key a) (key b).
Proof. apply compare_norm. Qed.

(** A bucket that is opened takes at least one step of the index. *)
Lemma visited_found_length (index : nat) (o : Doc) :
  sorted !! index = Some o →
  (0 < length (concat (map found_of (visited approxBucketSize index))))%nat.
Proof.
  intros Hidx. rewrite (visited_head _ _ _ _ _ _ _ o Happrox Hidx). simpl.
  assert (o ∈ coll) as Ho.
  { apply (sorted_of_elem_of computeValue groupByExpr).
    by eapply list_elem_of_lookup_2. }
  pose proof (found_of_own computeValue groupByExpr coll o Ho) as Hown.
  rewrite length_app.
  destruct (found_of o); [by apply not_elem_of_nil in Hown|simpl; lia].
Qed.

Lemma segments_length_sorted (left index : nat) :
  (length (segments left index) ≤ length sorted - index)%nat.
Proof.
  revert index. induction left as [|left IH]; intros index; simpl; [lia|].
  destruct (sorted !! index) as [o|] eqn:Hidx; simpl; [|lia].
  pose proof (visited_found_length index o Hidx) as Hpos.
  pose proof (lookup_lt_Some _ _ _ Hidx) as Hlt.
  specialize (IH (index + length (concat (map found_of
                       (visited approxBucketSize index))))%nat).
  lia.
Qed.

(** The [min] of a bucket is the key of a sorted document at or after the
    index the bucket was opened at. *)
Lemma segments_min_lookup (left index : nat) (m : Value) (items : list Doc) :
  (m, items) ∈ segments left index →
  ∃ i o, (index ≤ i)%nat ∧ sorted !! i = Some o ∧ m = norm_key o.
Proof.
  revert index. induction left as [|left IH]; intros index; simpl.
  - by intros ?%not_elem_of_nil.
  - destruct (sorted !! index) as [o|] eqn:Hidx; [|by intros ?%not_elem_of_nil].
    intros [[= -> ->]|Hin]%elem_of_cons.
    + by exists index, o.
    + apply IH in Hin as (i & o' & Hle & Hi & ->).
      exists i, o'. split; [lia|done].
Qed.

Lemma segments_mins_sorted (left index : nat) :
  StronglySorted (λ a b, compare a.1 b.1 ≠ Gt) (segments left index).
Proof.
  revert index. induction left as [|left IH]; intros index; simpl; [constructor|].
  destruct (sorted !! index) as [o|] eqn:Hidx; [|constructor].
  constructor; [apply IH|]. apply Forall_forall. intros [m items] Hin. simpl.
  apply segments_min_lookup in Hin as (i & o' & Hle & Hi & ->).
  pose proof (visited_found_length index o Hidx) as Hpos.
  rewrite compare_norm_key.
  apply (StronglySorted_lookup_lt (λ a b, compare (key a) (key b) ≠ Gt)
           sorted index i o o');
    [apply sortBy_StronglySorted|lia|done..].
Qed.

(** The first bucket opens at the first sorted document, which carries a
    least key. *)
Lemma segments_first_least (left : nat) (m : Value) (items : list Doc) segs (d : Doc) :
  segments left 0 = (m, items) :: segs → d ∈ coll → compare m (key d) ≠ Gt.
Proof.
  destruct left as [|left]; simpl; [done|].
  destruct (sorted !! 0%nat) as [o|] eqn:Hidx; [|done].
  intros [= <- _ _] Hd.
  apply (sorted_of_elem_of computeValue groupByExpr) in Hd.
  apply list_elem_of_lookup_1 in Hd as [j Hj].
  unfold norm_key. rewrite compare_norm_l.
  destruct j as [|j].
  - rewrite Hidx in Hj. simplify_eq. by rewrite (cmp_refl compare).
  - apply (StronglySorted_lookup_lt (λ a b, compare (key a) (key b) ≠ Gt)
             sorted 0 (S j) o d);
      [apply sortBy_StronglySorted|lia|done..].
Qed.
End OrderFacts.

(** ** More on chunks *)

Section MoreChunkFacts.
Context {A : Type}.
Implicit Types (ks c : list A) (k : A).

Lemma chunk_keys_nonempty (left n : nat) ks c :
  n ≠ 0%nat → c ∈ chunk_keys left n ks → c ≠ [].
Proof.
  intros Hn. revert ks. induction left as [|left IH]; intros ks; simpl.
  - by intros ?%not_elem_of_nil.
  - destruct ks as [|k ks]; [by intros ?%not_elem_of_nil|].
    destruct left as [|left].
    + intros ->%list_elem_of_singleton. done.
    + intros [->|Hc]%elem_of_cons; [|by eapply IH].
      destruct n; [done|]. done.
Qed.

(** With one key to a chunk and chunks enough, every key is a chunk. *)
Lemma chunk_keys_singletons (left : nat) ks :
  (length ks ≤ left)%nat → chunk_keys left 1 ks = map (λ k, [k]) ks.
Proof.
  revert ks. induction left as [|left IH]; intros ks Hlen.
  - destruct ks; [done|simpl in Hlen; lia].
  - destruct ks as [|k ks]; [done|]. simpl in Hlen.
    destruct left as [|left].
    + destruct ks; [done|simpl in Hlen; lia].
    + rewrite chunk_keys_cons. simpl take. simpl drop.
      rewrite take_0, drop_0, IH by lia. done.
Qed.

Lemma chunk_keys_one n ks : ks ≠ [] → chunk_keys 1 n ks = [ks].
Proof. by destruct ks. Qed.

(** The number of chunks: the keys divided by the chunk size, rounded up,
    and no more than [left]. *)
Lemma chunk_keys_length (left n : nat) ks :
  n ≠ 0%nat →
  length (chunk_keys left n ks) = Nat.min left ((length ks + n - 1) / n).
Proof.
  intros Hn. revert ks. induction left as [|left IH]; intros ks; [done|].
  destruct ks as [|k ks].
  - simpl. rewrite Nat.div_small by lia. lia.
  - assert (1 ≤ (length (k :: ks) + n - 1) / n)%nat as Hone.
    { apply Nat.div_le_lower_bound; simpl; lia. }
    destruct left as [|left]; [simpl chunk_keys; simpl length at 1; lia|].
    rewrite chunk_keys_cons, length_cons, IH, length_drop.
    destruct (decide (n ≤ length (k :: ks))%nat) as [Hle|Hgt].
    + replace (length (k :: ks) + n - 1)%nat
        with ((length (k :: ks) - n + n - 1) + 1 * n)%nat by lia.
      rewrite Nat.div_add by done. lia.
    + replace (length (k :: ks) - n)%nat with 0%nat by lia.
      rewrite (Nat.div_small (0 + n - 1)) by lia.
      assert ((length (k :: ks) + n - 1) / n < 2)%nat.
      { apply Nat.Div0.div_lt_upper_bound; lia. }
      lia.
Qed.
End MoreChunkFacts.

(** ** Keys and property strings *)

Lemma toPropertyKey_inj_same_type (a b : Value) :
  isNil a = false → isNil b = false → type_rank a = type_rank b →
  toPropertyKey a = toPropertyKey b → a = b.
Proof.
  destruct a as [| |[]|x|x], b as [| |[]|y|y]; simpl; try done.
  - intros _ _ _ Heq. f_equal. by apply (inj pretty).
  - by intros _ _ _ ->.
Qed.

(** ** Buckets and their keys *)

Section DistinctKeyFacts.
Context {Doc Expr : Type} (computeValue : Doc -> Expr -> Value).
Variable groupByExpr : Expr.

Local Abbreviation key := (computeValueOptimized computeValue groupByExpr).
Local Abbreviation norm_key := (norm_key computeValue groupByExpr).
Local Abbreviation distinct_keys := (distinct_keys computeValue groupByExpr).

Lemma distinct_keys_head (o : Doc) (l : list Doc) :
  head (distinct_keys (o :: l)) = Some (norm_key o).
Proof.
  simpl. destruct (distinct_keys l) as [|k ks]; [done|].
  destruct (decide (norm_key o = k)) as [->|]; done.
Qed.

Lemma distinct_keys_length (l : list Doc) :
  (length (distinct_keys l) ≤ length l)%nat.
Proof.
  induction l as [|o l IH]; simpl; [done|].
  destruct (distinct_keys l) as [|k ks]; simpl in *; [lia|].
  destruct (decide (norm_key o = k)); simpl; lia.
Qed.

Lemma distinct_keys_nil (l : list Doc) : distinct_keys l = [] → l = [].
Proof.
  destruct l as [|o l]; [done|]. intros Hnil.
  pose proof (distinct_keys_head o l) as Hhead. by rewrite Hnil in Hhead.
Qed.

(** The distinct keys of a sorted list ascend. *)
Lemma distinct_keys_sorted (l : list Doc) :
  StronglySorted (λ a b, compare (key a) (key b) ≠ Gt) l →
  StronglySorted (λ a b, compare a b ≠ Gt) (distinct_keys l).
Proof.
  induction l as [|o l IH]; intros Hs; [constructor|].
  apply StronglySorted_cons in Hs as [Ho Hs]. specialize (IH Hs).
  assert (StronglySorted (λ a b, compare a b ≠ Gt) (norm_key o :: distinct_keys l))
    as Hcons.
  { constructor; [done|]. apply Forall_forall.
    intros k (x & Hx & <-)%distinct_keys_elem.
    rewrite compare_norm_key. by eapply Forall_forall in Ho. }
  simpl. destruct (distinct_keys l) as [|k ks]; [done|].
  destruct (decide (norm_key o = k)); done.
Qed.

End DistinctKeyFacts.

Section BoundsFacts.
Context {Doc Expr : Type} (computeValue : Doc -> Expr -> Value).
Variables (groupByExpr : Expr) (coll : list Doc) (approxBucketSize : nat).
Hypothesis Happrox : approxBucketSize ≠ 0%nat.
Hypothesis Hnc : no_collision computeValue groupByExpr coll.

Local Abbreviation key := (computeValueOptimized computeValue groupByExpr).
Local Abbreviation norm_key := (norm_key computeValue groupByExpr).
Local Abbreviation group := (group computeValue groupByExpr).
Local Abbreviation distinct_keys := (distinct_keys computeValue groupByExpr).
Local Abbreviation sorted := (sorted_of computeValue groupByExpr coll).
Local Abbreviation grouped := (grouped_of computeValue groupByExpr coll).
Local Abbreviation remaining := (remaining_of computeValue groupByExpr coll).
Local Abbreviation segments :=
  (segments computeValue groupByExpr grouped remaining sorted approxBucketSize).
Local Abbreviation ahead := (ahead computeValue groupByExpr coll).

(** The [min] of every bucket is the first key of its chunk. *)
Lemma segments_mins_chunks (left index : nat) (ks : list Value) :
  ahead index ks →
  map fst (segments left index) =
  map (λ c, default VNull (head c)) (chunk_keys left approxBucketSize ks).
Proof.
  revert index ks. induction left as [|left IH]; intros index ks Hks; [done|].
  simpl. destruct ks as [|k ks].
  { by rewrite (ahead_nil _ _ _ _ Happrox _ Hks). }
  destruct (ahead_cons _ _ _ Hnc _ _ _ Hks) as (o & -> & Hk & _).
  destruct (visited_groups _ _ _ _ Happrox Hnc approxBucketSize _ _ Hks)
    as [-> Hahead].
  simpl. rewrite Hk. destruct left as [|left]; [done|].
  rewrite (IH _ _ Hahead). f_equal.
  by destruct approxBucketSize.
Qed.
End BoundsFacts.

(** ** The buckets when no two keys collide *)

Lemma pairs_eq {A B C : Type} (f : C → A) (g : C → B) (l : list (A * B)) (cs : list C) :
  map fst l = map f cs → map snd l = map g cs → l = map (λ c, (f c, g c)) cs.
Proof.
  revert cs. induction l as [|[a b] l IH]; intros [|c cs]; simpl; try done.
  intros [= -> Hf] [= -> Hg]. f_equal. by apply IH.
Qed.

Lemma approx_of_1 {Doc : Type} (coll : list Doc) (N : Z) :
  0 < N → Z.of_nat (length coll) ≤ N → approx_of coll N = 1%nat.
Proof.
  intros HN Hle. unfold approx_of, Math_round_div.
  assert ((2 * Z.of_nat (length coll) + N) / (2 * N) < 2) as Hlt.
  { apply Z.div_lt_upper_bound; lia. }
  lia.
Qed.

Section LinkFacts.
Context {Doc : Type}.
Implicit Types (segs : list (Value * list Doc)) (final : option Value).

Lemma link_min_items final segs :
  map (λ b, (own_min (_id b), bucketItems b)) (link final segs) =
  map (λ s, (Some s.1, s.2)) segs.
Proof. induction segs as [|[m its] segs IH]; simpl; congruence. Qed.

Lemma total_count_length (bs : list (@Bucket Doc)) :
  total_count bs = Z.of_nat (length (concat (map bucketItems bs))).
Proof.
  induction bs as [|b bs IH]; [done|].
  simpl. rewrite length_app, IH. unfold count. lia.
Qed.
End LinkFacts.

Section BucketFacts.
Context {Doc Expr : Type} (computeValue : Doc -> Expr -> Value).
Variables (groupByExpr : Expr) (coll : list Doc) (N : Z).
Hypothesis HN : 0 < N.
Hypothesis Hnc : no_collision computeValue groupByExpr coll.

Local Abbreviation key := (computeValueOptimized computeValue groupByExpr).
Local Abbreviation norm_key := (norm_key computeValue groupByExpr).
Local Abbreviation group := (group computeValue groupByExpr coll).
Local Abbreviation sorted := (sorted_of computeValue groupByExpr coll).
Local Abbreviation keys := (distinct_keys computeValue groupByExpr sorted).
Local Abbreviation chunks := (chunk_keys (Z.to_nat N) (approx_of coll N) keys).
Local Abbreviation segs :=
  (segments computeValue groupByExpr (grouped_of computeValue groupByExpr coll)
     (remaining_of computeValue groupByExpr coll) sorted
     (approx_of coll N) (Z.to_nat N) 0).
Local Abbreviation bs := (buckets_of computeValue groupByExpr coll N).

(** The [min] and the items of the buckets, chunk by chunk. *)
Lemma segments_of_chunks :
  segs = map (λ c, (default VNull (head c), concat (map group c))) chunks.
Proof.
  apply pairs_eq.
  - apply (segments_mins_chunks computeValue groupByExpr coll (approx_of coll N)
             (approx_of_ne_0 coll N) Hnc).
    apply ahead_start.
  - apply (segments_chunks computeValue groupByExpr coll (approx_of coll N)
             (approx_of_ne_0 coll N) Hnc).
    apply ahead_start.
Qed.

Lemma buckets_of_length : length bs = length chunks.
Proof.
  unfold buckets_of. by rewrite link_length, segments_of_chunks, length_map.
Qed.

Lemma keys_sorted : StronglySorted (λ a b, compare a b ≠ Gt) keys.
Proof. apply distinct_keys_sorted, sortBy_StronglySorted. Qed.

Lemma keys_NoDup : NoDup keys.
Proof. apply sorted_key_groups, sortBy_StronglySorted. Qed.

Lemma chunks_concat : concat chunks = keys.
Proof. apply chunk_keys_concat. lia. Qed.

Lemma chunks_lookup_key (i : nat) c k :
  chunks !! i = Some c → k ∈ c → ∃ o, o ∈ coll ∧ norm_key o = k.
Proof.
  intros Hc%list_elem_of_lookup_2 Hk.
  assert (k ∈ keys) as (o & Ho & Hko)%distinct_keys_elem
    by (by eapply chunk_keys_elem).
  exists o. split; [|done]. by apply (sorted_of_elem_of computeValue groupByExpr).
Qed.

(** A bucket and its chunk of keys: the [min] is the first key of the
    chunk, the items are the documents of the keys of the chunk, and the
    [max] is the first key of the next chunk, or the key of the last sorted
    document when there is no next chunk. *)
Lemma buckets_of_lookup (i : nat) (b : Bucket) :
  bs !! i = Some b →
  ∃ h t, chunks !! i = Some (h :: t) ∧
    own_min (_id b) = Some h ∧
    bucketItems b = concat (map group (h :: t)) ∧
    own_max (_id b) = match chunks !! S i with
                      | Some c' => head c'
                      | None => key <$> last sorted
                      end.
Proof.
  unfold buckets_of. intros (m & items & Hseg & ->)%link_lookup.
  rewrite segments_of_chunks in Hseg |- *.
  rewrite list_lookup_fmap in Hseg.
  change (map ?f chunks) with (f <$> chunks). rewrite list_lookup_fmap.
  destruct (chunks !! i) as [c|] eqn:Hc; [|done]. simpl in Hseg.
  destruct c as [|h t].
  { apply list_elem_of_lookup_2 in Hc.
    by apply (chunk_keys_nonempty _ _ _ _ (approx_of_ne_0 coll N)) in Hc. }
  simplify_eq. exists h, t. simpl. split_and!; [done..|].
  destruct (chunks !! S i) as [c'|] eqn:Hc'; [|done]. simpl.
  destruct c' as [|h' t']; [|done].
  apply list_elem_of_lookup_2 in Hc'.
  by apply (chunk_keys_nonempty _ _ _ _ (approx_of_ne_0 coll N)) in Hc'.
Qed.

Lemma buckets_of_items :
  map bucketItems bs = map (λ c, concat (map group c)) chunks.
Proof.
  unfold buckets_of. rewrite link_items, segments_of_chunks.
  rewrite map_map. done.
Qed.

(** The buckets, laid end to end, are the sorted collection. *)
Lemma buckets_of_concat : concat (map bucketItems bs) = sorted.
Proof.
  rewrite buckets_of_items, concat_map_concat, chunks_concat.
  apply sorted_groups.
Qed.

Lemma compare_norm_keys_Eq (a b : Doc) :
  compare (norm_key a) (norm_key b) = Eq → norm_key a = norm_key b.
Proof. rewrite compare_norm_key. apply compare_key_Eq. Qed.

(** The key of a document lies between the [min] and the [max] of its
    bucket, and strictly below the [max] when the bucket is not the last. *)
Lemma buckets_of_key_bounds (i : nat) (b : Bucket) (d : Doc) :
  bs !! i = Some b → d ∈ bucketItems b →
  ∃ m M, own_min (_id b) = Some m ∧ own_max (_id b) = Some M ∧
    compare m (key d) ≠ Gt ∧ compare (key d) M ≠ Gt ∧
    ((S i < length bs)%nat → compare (key d) M = Lt).
Proof.
  intros Hb Hd.
  destruct (buckets_of_lookup i b Hb) as (h & t & Hc & Hmin & Hitems & Hmax).
  rewrite Hitems in Hd.
  apply elem_of_concat_map in Hd as (k & Hk & [Hdk Hdc]%group_elem).
  pose proof keys_sorted as Hsorted. rewrite <- chunks_concat in Hsorted.
  assert (compare h (key d) ≠ Gt) as Hlow.
  { rewrite <- compare_norm_r. change (compare h (norm_key d) ≠ Gt). rewrite Hdk.
    apply elem_of_cons in Hk as [->|Hk]; [by rewrite (cmp_refl compare)|].
    by apply (StronglySorted_concat_head (λ a b, compare a b ≠ Gt) chunks i h t k). }
  rewrite buckets_of_length.
  destruct (chunks !! S i) as [c'|] eqn:Hc'.
  - destruct c' as [|h' t'].
    { apply list_elem_of_lookup_2 in Hc'.
      by apply (chunk_keys_nonempty _ _ _ _ (approx_of_ne_0 coll N)) in Hc'. }
    exists h, h'. split_and!; [done..| |].
    + rewrite <- compare_norm_l. change (compare (norm_key d) h' ≠ Gt). rewrite Hdk.
      apply (StronglySorted_concat_lt (λ a b, compare a b ≠ Gt) chunks i (S i)
               (h :: t) (h' :: t') k h');
        [done|lia|done..|left].
    + intros _.
      assert (compare k h' ≠ Gt) as Hle.
      { apply (StronglySorted_concat_lt (λ a b, compare a b ≠ Gt) chunks i (S i)
               (h :: t) (h' :: t') k h');
          [done|lia|done..|left]. }
      rewrite <- compare_norm_l. change (compare (norm_key d) h' = Lt). rewrite Hdk.
      destruct (compare k h') eqn:Hcmp; [|done..].
      destruct (chunks_lookup_key (S i) (h' :: t') h' Hc') as (o' & _ & Ho'); [left|].
      rewrite <- Hdk, <- Ho' in Hcmp. apply compare_norm_keys_Eq in Hcmp.
      rewrite Hdk, Ho' in Hcmp. subst h'.
      assert (i = S i) as Hi; [|lia].
      eapply (chunk_keys_disjoint _ _ keys i (S i) (h :: t) (k :: t') k);
        [apply keys_NoDup|done|done|done|left].
  - apply lookup_ge_None in Hc'.
    assert (d ∈ sorted) as Hds by (by apply (sorted_of_elem_of computeValue groupByExpr)).
    destruct (last sorted) as [o|] eqn:Hlast.
    + exists h, (key o). split_and!; [done..| |lia].
      by apply (sortBy_last_greatest key coll o).
    + apply last_None in Hlast. rewrite Hlast in Hds. by apply not_elem_of_nil in Hds.
Qed.

(** The number of buckets. *)
Lemma buckets_of_count :
  length bs =
  Nat.min (Z.to_nat N) ((length keys + approx_of coll N - 1) / approx_of coll N).
Proof.
  rewrite buckets_of_length. apply chunk_keys_length, approx_of_ne_0.
Qed.

(** With buckets enough, a bucket for every key. *)
Lemma buckets_of_per_key :
  Z.of_nat (length coll) ≤ N →
  map (λ b, (own_min (_id b), bucketItems b)) bs = map (λ k, (Some k, group k)) keys.
Proof.
  intros Hle. unfold buckets_of.
  rewrite link_min_items, segments_of_chunks, approx_of_1 by done.
  rewrite chunk_keys_singletons.
  - rewrite !map_map. apply map_ext. intros k. simpl. by rewrite app_nil_r.
  - pose proof (distinct_keys_length computeValue groupByExpr sorted) as Hlen.
    pose proof (sortBy_length key coll compare) as Hs.
    change (length sorted = length coll) in Hs. lia.
Qed.
End BucketFacts.

(** ** The boundaries in order *)

Section BoundaryFacts.
Context {Doc Expr : Type} (computeValue : Doc -> Expr -> Value).
Variables (groupByExpr : Expr) (coll : list Doc) (N : Z).

Local Abbreviation key := (computeValueOptimized computeValue groupByExpr).
Local Abbreviation norm_key := (norm_key computeValue groupByExpr).
Local Abbreviation sorted := (sorted_of computeValue groupByExpr coll).
Local Abbreviation segs :=
  (segments computeValue groupByExpr (grouped_of computeValue groupByExpr coll)
     (remaining_of computeValue groupByExpr coll) sorted
     (approx_of coll N) (Z.to_nat N) 0).
Local Abbreviation bs := (buckets_of computeValue groupByExpr coll N).

Lemma buckets_of_at_most : (length bs ≤ Z.to_nat N)%nat ∧ (length bs ≤ length coll)%nat.
Proof.
  unfold buckets_of. rewrite link_length.
  pose proof (segments_length computeValue groupByExpr coll (approx_of coll N)
                (approx_of_ne_0 coll N) (Z.to_nat N) 0) as Hleft.
  pose proof (segments_length_sorted computeValue groupByExpr coll (approx_of coll N)
                (approx_of_ne_0 coll N) (Z.to_nat N) 0) as Hlen.
  pose proof (sortBy_length key coll compare) as Hs.
  change (length sorted = length coll) in Hs. lia.
Qed.

Lemma buckets_of_mins_ascend (i j : nat) (b b' : Bucket) :
  (i < j)%nat → bs !! i = Some b → bs !! j = Some b' →
  compare (get_min (_id b)) (get_min (_id b')) ≠ Gt.
Proof.
  unfold buckets_of.
  intros Hij (m & items & Hs & ->)%link_lookup (m' & items' & Hs' & ->)%link_lookup.
  apply (StronglySorted_lookup_lt (λ a b, compare a.1 b.1 ≠ Gt) segs i j
           (m, items) (m', items')); [|done..].
  apply segments_mins_sorted, approx_of_ne_0.
Qed.

Lemma buckets_of_min_le_max (b : Bucket) :
  b ∈ bs → compare (get_min (_id b)) (get_max (_id b)) ≠ Gt.
Proof.
  unfold buckets_of. intros (i & (m & items & Hs & ->)%link_lookup)%list_elem_of_lookup_1.
  unfold get_min, get_max. simpl.
  destruct (segs !! S i) as [[m' items']|] eqn:Hs'; simpl.
  - apply (StronglySorted_lookup_lt (λ a b, compare a.1 b.1 ≠ Gt) segs i (S i)
             (m, items) (m', items')); [|lia|done..].
    apply segments_mins_sorted, approx_of_ne_0.
  - apply list_elem_of_lookup_2 in Hs.
    apply (segments_min_lookup computeValue groupByExpr coll (approx_of coll N)
             (approx_of_ne_0 coll N)) in Hs as (j & o & _ & Ho & ->).
    assert (o ∈ coll) as Hin.
    { apply (sorted_of_elem_of computeValue groupByExpr).
      by eapply list_elem_of_lookup_2. }
    destruct (last sorted) as [o'|] eqn:Hlast; simpl.
    + unfold norm_key. rewrite compare_norm_l.
      by apply (sortBy_last_greatest key coll o').
    + apply last_None in Hlast. by rewrite Hlast in Ho.
Qed.

Lemma buckets_of_first_least (b : Bucket) (d : Doc) :
  head bs = Some b → d ∈ coll → compare (get_min (_id b)) (key d) ≠ Gt.
Proof.
  unfold buckets_of. rewrite head_lookup.
  intros (m & items & Hs & ->)%link_lookup Hd. simpl.
  destruct segs as [|seg rest] eqn:Hsegs; [done|]. simpl in Hs. simplify_eq.
  by eapply (segments_first_least computeValue groupByExpr coll (approx_of coll N)
               (approx_of_ne_0 coll N)).
Qed.
End BoundaryFacts.

(** ** Collections of one key, stages of one bucket *)

Lemma chunk_keys_single {A : Type} (left n : nat) (k : A) :
  left ≠ 0%nat → n ≠ 0%nat → chunk_keys left n [k] = [[k]].
Proof.
  intros Hleft Hn. destruct left as [|[|left]]; [done|done|].
  rewrite chunk_keys_cons. destruct n as [|n]; [done|].
  simpl. by rewrite take_nil, drop_nil.
Qed.

Section SingleKey.
Context {Doc Expr : Type} (computeValue : Doc -> Expr -> Value).
Variables (groupByExpr : Expr) (coll : list Doc) (N : Z) (k : Value).
Hypothesis HN : 0 < N.
Hypothesis Hcoll : coll ≠ [].
Hypothesis Hall : ∀ d, d ∈ coll → norm_key computeValue groupByExpr d = k.

Local Abbreviation key := (computeValueOptimized computeValue groupByExpr).
Local Abbreviation norm_key := (norm_key computeValue groupByExpr).
Local Abbreviation sorted := (sorted_of computeValue groupByExpr coll).

Lemma distinct_keys_const (l : list Doc) :
  l ≠ [] → (∀ d, d ∈ l → norm_key d = k) →
  distinct_keys computeValue groupByExpr l = [k].
Proof.
  induction l as [|o l IH]; [done|]. intros _ Hl. simpl.
  destruct l as [|o' l].
  - simpl. rewrite Hl; [done|left].
  - rewrite IH; [|done|intros d Hd; apply Hl; by right].
    rewrite decide_True; [done|apply Hl; left].
Qed.

Lemma single_key_no_collision : no_collision computeValue groupByExpr coll.
Proof.
  intros x y Hx Hy Hnx Hny _.
  rewrite <- (norm_key_not_nil _ _ x Hnx), <- (norm_key_not_nil _ _ y Hny).
  by rewrite !Hall.
Qed.

Lemma single_key_sorted : sorted = coll.
Proof.
  assert (sorted ≠ []) as Hne.
  { intros Hnil. apply Hcoll, length_zero_iff_nil.
    rewrite <- (sortBy_length key coll compare).
    change (length sorted = 0%nat). by rewrite Hnil. }
  rewrite <- (sorted_groups computeValue groupByExpr coll) at 1.
  rewrite (distinct_keys_const sorted Hne).
  - simpl. rewrite app_nil_r. by apply filter_all.
  - intros d Hd. by apply Hall, (sorted_of_elem_of computeValue groupByExpr).
Qed.

(** Documents that all have one key make one bucket, in input order. *)
Lemma buckets_of_single_key :
  buckets_of computeValue groupByExpr coll N =
  [mkBucket (mkBoundaries (Some k) (key <$> last coll)) coll].
Proof.
  unfold buckets_of.
  rewrite (segments_of_chunks computeValue groupByExpr coll N single_key_no_collision).
  rewrite single_key_sorted.
  rewrite (distinct_keys_const coll Hcoll Hall).
  rewrite chunk_keys_single by (try apply approx_of_ne_0; lia).
  simpl. rewrite app_nil_r. f_equal. f_equal. by apply filter_all.
Qed.
End SingleKey.

Section OneBucket.
Context {Doc Expr : Type} (computeValue : Doc -> Expr -> Value).
Variables (groupByExpr : Expr) (coll : list Doc).
Hypothesis Hcoll : coll ≠ [].
Hypothesis Hnc : no_collision computeValue groupByExpr coll.

Local Abbreviation key := (computeValueOptimized computeValue groupByExpr).
Local Abbreviation norm_key := (norm_key computeValue groupByExpr).
Local Abbreviation sorted := (sorted_of computeValue groupByExpr coll).

(** One bucket asked for: it holds the sorted collection, from the least key
    to the greatest. *)
Lemma buckets_of_one :
  buckets_of computeValue groupByExpr coll 1 =
  [mkBucket (mkBoundaries (norm_key <$> head sorted) (key <$> last sorted)) sorted].
Proof.
  unfold buckets_of.
  rewrite (segments_of_chunks computeValue groupByExpr coll 1 Hnc).
  destruct sorted as [|o rest] eqn:Hsorted.
  { destruct Hcoll. apply length_zero_iff_nil.
    rewrite <- (sortBy_length key coll compare).
    change (length sorted = 0%nat). by rewrite Hsorted. }
  pose proof (distinct_keys_head computeValue groupByExpr o rest) as Hhead.
  pose proof (sorted_groups computeValue groupByExpr coll) as Hcat.
  rewrite Hsorted in Hcat.
  change (Z.to_nat 1) with 1%nat.
  rewrite chunk_keys_one; [|intros Hnil; by rewrite Hnil in Hhead].
  remember (distinct_keys computeValue groupByExpr (o :: rest)) as ks.
  simpl. by rewrite Hhead, Hcat.
Qed.
End OneBucket.

(** ** Keys of one type *)

Section SameType.
Context {Doc Expr : Type} (computeValue : Doc -> Expr -> Value).
Variables (groupByExpr : Expr) (coll : list Doc).

Local Abbreviation key := (computeValueOptimized computeValue groupByExpr).

(** Keys of one type have different property strings when they differ. *)
Lemma same_type_no_collision :
  (∀ x y, x ∈ coll → y ∈ coll → ¬ isNil (key x) → ¬ isNil (key y) →
     type_rank (key x) = type_rank (key y)) →
  no_collision computeValue groupByExpr coll.
Proof.
  intros Hty x y Hx Hy Hnx Hny Heq.
  apply toPropertyKey_inj_same_type;
    [by apply Is_true_false_1..|by apply Hty|done].
Qed.
End SameType.

(** ** The order of the input *)

Lemma StronglySorted_strengthen {A : Type} (R R' : relation A) (P : A → Prop)
    (l : list A) :
  (∀ a b, R a b → P a → P b → R' a b) →
  Forall P l → StronglySorted R l → StronglySorted R' l.
Proof.
  intros HR. induction l as [|a l IH]; intros HP Hs; [constructor|].
  apply Forall_cons in HP as [Ha HP]. apply StronglySorted_cons in Hs as [Hal Hs].
  constructor; [by apply IH|].
  apply Forall_forall. intros b Hb.
  apply HR; [by eapply Forall_forall in Hal|done|by eapply Forall_forall in HP].
Qed.

Lemma concat_map_Permutation {A B : Type} (f g : A → list B) (l : list A) :
  (∀ a, f a ≡ₚ g a) → concat (map f l) ≡ₚ concat (map g l).
Proof.
  intros Hfg. induction l as [|a l IH]; simpl; [done|]. by rewrite Hfg, IH.
Qed.

Section InputOrder.
Context {Doc Expr : Type} (computeValue : Doc -> Expr -> Value).
Variables (groupByExpr : Expr) (coll coll' : list Doc) (N : Z).
Hypothesis Hnc : no_collision computeValue groupByExpr coll.
Hypothesis Hperm : coll ≡ₚ coll'.

Local Abbreviation key := (computeValueOptimized computeValue groupByExpr).
Local Abbreviation norm_key := (norm_key computeValue groupByExpr).
Local Abbreviation sorted_of := (sorted_of computeValue groupByExpr).
Local Abbreviation keys_of :=
  (λ c, distinct_keys computeValue groupByExpr (sorted_of c)).
Local Abbreviation buckets_of := (buckets_of computeValue groupByExpr).

Lemma no_collision_Permutation : no_collision computeValue groupByExpr coll'.
Proof. intros x y Hx Hy. apply Hnc; by rewrite Hperm. Qed.

(** The distinct keys in ascending order do not depend on the order of the
    input. *)
Lemma distinct_keys_Permutation : keys_of coll = keys_of coll'.
Proof.
  set (R := λ a b : Value, compare a b ≠ Gt ∧ a ≠ VUndefined ∧ b ≠ VUndefined).
  assert (AntiSymm (=) R) as Hanti.
  { intros a b (Hab & Ha & Hb) (Hba & _ & _).
    assert (compare a b = Eq) as Heq.
    { rewrite (cmp_antisym (cmp:=compare)) in Hba. by destruct (compare a b). }
    apply compare_Eq in Heq. by destruct a, b. }
  assert (∀ c, StronglySorted R (keys_of c)) as Hsorted.
  { intros c.
    apply (StronglySorted_strengthen (λ a b, compare a b ≠ Gt) R (λ k, k ≠ VUndefined)).
    - by intros a b ? ? ?.
    - apply Forall_forall. intros k (o & _ & <-)%distinct_keys_elem.
      unfold norm_key. by destruct (key o).
    - apply distinct_keys_sorted, sortBy_StronglySorted. }
  apply (StronglySorted_unique R); [apply Hsorted..|].
  apply NoDup_Permutation; [apply sorted_key_groups, sortBy_StronglySorted..|].
  intros k. rewrite !distinct_keys_elem.
  split; intros (o & Ho & Hk); exists o; (split; [|done]);
    apply sorted_of_elem_of; apply sorted_of_elem_of in Ho.
  - by rewrite <- Hperm.
  - by rewrite Hperm.
Qed.

Lemma sorted_of_last_Permutation (o o' : Doc) :
  last (sorted_of coll) = Some o → last (sorted_of coll') = Some o' →
  compare (key o) (key o') = Eq.
Proof.
  intros [Ho Hmax]%sortBy_last_greatest [Ho' Hmax']%sortBy_last_greatest.
  assert (compare (key o) (key o') ≠ Gt) as Hle by (apply Hmax'; by rewrite <- Hperm).
  assert (compare (key o') (key o) ≠ Gt) as Hge by (apply Hmax; by rewrite Hperm).
  rewrite (cmp_antisym (cmp:=compare)) in Hge. by destruct (compare (key o) (key o')).
Qed.

Lemma sorted_of_last_None (c : list Doc) : last (sorted_of c) = None → c = [].
Proof.
  intros Hnil%last_None. apply length_zero_iff_nil.
  rewrite <- (sortBy_length key c compare).
  change (length (sorted_of c) = 0%nat). by rewrite Hnil.
Qed.

(** The buckets of a collection and of the same documents in another
    order. *)
Lemma buckets_of_Permutation :
  Forall2 (λ b b', own_min (_id b) = own_min (_id b') ∧
                   compare (get_max (_id b)) (get_max (_id b')) = Eq ∧
                   bucketItems b ≡ₚ bucketItems b')
    (buckets_of coll N) (buckets_of coll' N).
Proof.
  pose proof no_collision_Permutation as Hnc'.
  assert (chunk_keys (Z.to_nat N) (approx_of coll' N) (keys_of coll') =
          chunk_keys (Z.to_nat N) (approx_of coll N) (keys_of coll)) as Hchunks.
  { rewrite distinct_keys_Permutation. unfold approx_of. by rewrite Hperm. }
  apply Forall2_same_length_lookup_2.
  { rewrite (buckets_of_length _ _ coll N Hnc), (buckets_of_length _ _ coll' N Hnc').
    by rewrite Hchunks. }
  intros i b b' Hb Hb'.
  destruct (buckets_of_lookup _ _ coll N Hnc i b Hb)
    as (h & t & Hc & Hmin & Hitems & Hmax).
  destruct (buckets_of_lookup _ _ coll' N Hnc' i b' Hb')
    as (h' & t' & Hc' & Hmin' & Hitems' & Hmax').
  rewrite Hchunks in Hc', Hmax'. rewrite Hc in Hc'. simplify_eq.
  split_and!.
  - by rewrite Hmin, Hmin'.
  - unfold get_max. rewrite Hmax, Hmax'.
    destruct (chunk_keys _ _ _ !! S i) as [c|]; [by rewrite (cmp_refl compare)|].
    destruct (last (sorted_of coll)) as [o|] eqn:Hlast,
             (last (sorted_of coll')) as [o'|] eqn:Hlast'; simpl.
    + by apply sorted_of_last_Permutation.
    + apply sorted_of_last_None in Hlast'. rewrite Hlast' in Hperm.
      apply Permutation_nil_r in Hperm. by rewrite Hperm in Hlast.
    + apply sorted_of_last_None in Hlast. rewrite Hlast in Hperm.
      apply Permutation_nil_l in Hperm. by rewrite <- Hperm in Hlast'.
    + done.
  - rewrite Hitems, Hitems'. apply concat_map_Permutation.
    intros k. unfold group. by rewrite Hperm.
Qed.
End InputOrder.

(** ** The document a bucket opens at *)

Section OpeningFacts.
Context {Doc Expr : Type} (computeValue : Doc -> Expr -> Value).
Variables (groupByExpr : Expr) (coll : list Doc) (approxBucketSize : nat).
Hypothesis Happrox : approxBucketSize ≠ 0%nat.

Local Abbreviation norm_key := (norm_key computeValue groupByExpr).
Local Abbreviation sorted := (sorted_of computeValue groupByExpr coll).
Local Abbreviation grouped := (grouped_of computeValue groupByExpr coll).
Local Abbreviation remaining := (remaining_of computeValue groupByExpr coll).
Local Abbreviation found_of := (found_of computeValue groupByExpr grouped remaining).
Local Abbreviation visited := (visited computeValue groupByExpr grouped remaining sorted).
Local Abbreviation segments :=
  (segments computeValue groupByExpr grouped remaining sorted approxBucketSize).

(** The [min] of a bucket is the key of a document of that bucket: the
    document the bucket was opened at is among the first ones added. *)
Lemma segments_min_attained (left index : nat) (m : Value) (items : list Doc) :
  (m, items) ∈ segments left index → ∃ d, d ∈ items ∧ m = norm_key d.
Proof.
  revert index. induction left as [|left IH]; intros index; simpl.
  - by intros ?%not_elem_of_nil.
  - destruct (sorted !! index) as [o|] eqn:Hidx; [|by intros ?%not_elem_of_nil].
    intros [[= -> ->]|Hin]%elem_of_cons; [|by eapply IH].
    assert (o ∈ coll) as Ho.
    { apply (sorted_of_elem_of computeValue groupByExpr).
      by eapply list_elem_of_lookup_2. }
    pose proof (found_of_own computeValue groupByExpr coll o Ho) as Hown.
    exists o. split; [|done].
    rewrite (visited_head _ _ _ _ _ _ _ o Happrox Hidx). simpl.
    destruct left; repeat (apply elem_of_app; left); done.
Qed.
End OpeningFacts.

(** * Further theorems about [$bucketAuto] *)

Section Further.
Context {Doc Expr : Type} (computeValue : Doc -> Expr -> Value).

Local Abbreviation bucketAuto := (bucketAuto computeValue).
Local Abbreviation plain_keys := (plain_keys computeValue).

(** X1: for an integer bucket count (or [true], which counts as one) and
    plain keys, the stage emits no more buckets than [buckets] asks for, and
    no more than the collection has documents. *)
Theorem bucketAuto_bucket_count_bounds (coll : list Doc) (expr : BucketAutoSpec)
    (n : Z) :
  ToNumber (buckets expr) = Some n → 0 < n →
  plain_keys (groupBy expr) coll →
  ∃ bs, bucketAuto coll expr = Ok bs ∧
    Z.of_nat (length bs) ≤ n ∧ (length bs ≤ length coll)%nat.
Proof.
  intros Hn Hpos Hplain. eexists. split; [by apply bucketAuto_Ok|].
  destruct (buckets_of_at_most computeValue (groupBy expr) coll n). lia.
Qed.

(** X2: when the bucket count is accepted, the stage throws a [TypeError]
    exactly when the key of some document is not nil and names a property
    that [grouped] inherits from [Object.prototype], such as
    ["constructor"]: the sort callback then finds [grouped[key]] truthy,
    stores nothing, and calls a [push] that is not there. *)
Theorem bucketAuto_TypeError_iff (coll : list Doc) (expr : BucketAutoSpec) :
  gt_zero (buckets expr) = true →
  (bucketAuto coll expr = Throw TypeError ↔
   ∃ d, d ∈ coll ∧ ¬ isNil (computeValue d (groupBy expr)) ∧
        inherited (toPropertyKey (computeValue d (groupBy expr))) = true).
Proof.
  intros Hgt. split; [|by apply bucketAuto_TypeError].
  intros Hthrow.
  destruct (own_keys_or_not computeValue (groupBy expr) coll) as [Hown|Hbad];
    [|done].
  apply gt_zero_true in Hgt as (n & Hn & Hpos).
  by rewrite (bucketAuto_Ok_own _ _ _ n Hn Hpos Hown) in Hthrow.
Qed.

(** X3: for an accepted bucket count and plain keys, colliding or not, the
    boundaries ascend: the [min] of a bucket is not above the [min] of a
    later bucket, nor above its own [max], and the [min] of the first bucket
    is not above the key of any document. *)
Theorem bucketAuto_boundaries_ascend (coll : list Doc) (expr : BucketAutoSpec) :
  gt_zero (buckets expr) = true →
  plain_keys (groupBy expr) coll →
  ∃ bs, bucketAuto coll expr = Ok bs ∧
    (∀ i j b b', (i < j)%nat → bs !! i = Some b → bs !! j = Some b' →
       compare (get_min (_id b)) (get_min (_id b')) ≠ Gt) ∧
    (∀ b, b ∈ bs → compare (get_min (_id b)) (get_max (_id b)) ≠ Gt) ∧
    (∀ b d, head bs = Some b → d ∈ coll →
       compare (get_min (_id b)) (computeValue d (groupBy expr)) ≠ Gt).
Proof.
  intros (n & Hn & Hpos)%gt_zero_true Hplain.
  eexists. split; [by apply bucketAuto_Ok|]. split_and!.
  - apply buckets_of_mins_ascend.
  - apply buckets_of_min_le_max.
  - apply buckets_of_first_least.
Qed.

(** X4: for an accepted bucket count and plain keys no two of which, when
    they differ, share a property string, the key of every document of a
    bucket is at or above the [min] of the bucket and at or below its [max];
    it is strictly below the [max] in every bucket but the last. *)
Theorem bucketAuto_keys_within_boundaries (coll : list Doc) (expr : BucketAutoSpec) :
  gt_zero (buckets expr) = true →
  plain_keys (groupBy expr) coll →
  no_collision computeValue (groupBy expr) coll →
  ∃ bs, bucketAuto coll expr = Ok bs ∧
    ∀ i b d, bs !! i = Some b → d ∈ bucketItems b →
      compare (get_min (_id b)) (computeValue d (groupBy expr)) ≠ Gt ∧
      compare (computeValue d (groupBy expr)) (get_max (_id b)) ≠ Gt ∧
      ((S i < length bs)%nat →
       compare (computeValue d (groupBy expr)) (get_max (_id b)) = Lt).
Proof.
  intros (n & Hn & Hpos)%gt_zero_true Hplain Hnc.
  eexists. split; [by apply bucketAuto_Ok|].
  intros i b d Hb Hd.
  destruct (buckets_of_key_bounds computeValue (groupBy expr) coll n Hpos Hnc i b d
              Hb Hd) as (m & M & Hmin & Hmax & Hlow & Hhigh & Hstrict).
  unfold get_min, get_max. by rewrite Hmin, Hmax.
Qed.

(** X5: for an integer bucket count (or [true]) and plain keys no two of
    which, when they differ, share a property string, the counts of the
    default output add up to the size of the collection. *)
Theorem bucketAuto_counts_add_up (coll : list Doc) (expr : BucketAutoSpec) :
  gt_zero (buckets expr) = true →
  plain_keys (groupBy expr) coll →
  no_collision computeValue (groupBy expr) coll →
  ∃ bs, bucketAuto coll expr = Ok bs ∧ total_count bs = Z.of_nat (length coll).
Proof.
  intros (n & Hn & Hpos)%gt_zero_true Hplain Hnc.
  eexists. split; [by apply bucketAuto_Ok|].
  rewrite total_count_length, buckets_of_concat by done.
  unfold sorted_of. by rewrite sortBy_length.
Qed.

(** X6: a collection whose documents all have the same plain key, the two
    nil values counting as one, comes out as one bucket that holds the
    collection in input order; its [min] is the key, [null] for a nil key,
    and its [max] is the key of the last document as it is. *)
Theorem bucketAuto_single_key (coll : list Doc) (expr : BucketAutoSpec) (k : Value) :
  gt_zero (buckets expr) = true → coll ≠ [] →
  plain_keys (groupBy expr) coll →
  (∀ d, d ∈ coll → norm_key computeValue (groupBy expr) d = k) →
  bucketAuto coll expr =
  Ok [mkBucket
        (mkBoundaries (Some k) ((λ o, computeValue o (groupBy expr)) <$> last coll))
        coll].
Proof.
  intros (n & Hn & Hpos)%gt_zero_true Hcoll Hplain Hall.
  rewrite (bucketAuto_Ok _ _ _ n Hn Hpos Hplain). f_equal.
  by apply buckets_of_single_key.
Qed.

(** X7: when the integer [buckets] is at least the size of the collection
    and the keys are plain, no two of them that differ sharing a property
    string, every distinct key has a bucket of its own: the buckets are, in
    ascending order of the keys, the documents of each key, with that key as
    [min]. *)
Theorem bucketAuto_bucket_per_key (coll : list Doc) (expr : BucketAutoSpec) (n : Z) :
  ToNumber (buckets expr) = Some n → 0 < n → Z.of_nat (length coll) ≤ n →
  plain_keys (groupBy expr) coll →
  no_collision computeValue (groupBy expr) coll →
  ∃ bs, bucketAuto coll expr = Ok bs ∧
    map (λ b, (own_min (_id b), bucketItems b)) bs =
    map (λ k, (Some k, group computeValue (groupBy expr) coll k))
      (distinct_keys computeValue (groupBy expr)
         (sortBy coll (λ o, computeValue o (groupBy expr)) compare)).
Proof.
  intros Hn Hpos Hle Hplain Hnc. eexists. split; [by apply bucketAuto_Ok|].
  by apply buckets_of_per_key.
Qed.

(** X8: the number of buckets for an integer bucket count and plain keys no
    two of which, when they differ, share a property string: the number of
    distinct keys divided by the bucket size [max 1 (round (size / buckets))],
    rounded up, and [buckets] when that is less. *)
Theorem bucketAuto_bucket_count (coll : list Doc) (expr : BucketAutoSpec) (n : Z) :
  ToNumber (buckets expr) = Some n → 0 < n →
  plain_keys (groupBy expr) coll →
  no_collision computeValue (groupBy expr) coll →
  ∃ bs, bucketAuto coll expr = Ok bs ∧
    length bs =
    Nat.min (Z.to_nat n)
      ((length (distinct_keys computeValue (groupBy expr)
                  (sortBy coll (λ o, computeValue o (groupBy expr)) compare))
        + Z.to_nat (Z.max 1 (Math_round_div (Z.of_nat (length coll)) n)) - 1)
       / Z.to_nat (Z.max 1 (Math_round_div (Z.of_nat (length coll)) n))).
Proof.
  intros Hn Hpos Hplain Hnc. eexists. split; [by apply bucketAuto_Ok|].
  by apply buckets_of_count.
Qed.

(** X9: asked for one bucket, by [buckets: 1] or [buckets: true], the stage
    emits one bucket that holds the whole collection sorted on the key, from
    the least key as [min] to the greatest as [max]; this is for a collection
    that is not empty and whose keys are plain, no two of them that differ
    sharing a property string. *)
Theorem bucketAuto_one_bucket (coll : list Doc) (expr : BucketAutoSpec) :
  ToNumber (buckets expr) = Some 1 → coll ≠ [] →
  plain_keys (groupBy expr) coll →
  no_collision computeValue (groupBy expr) coll →
  bucketAuto coll expr =
  Ok [mkBucket
        (mkBoundaries
           (norm_key computeValue (groupBy expr) <$>
              head (sortBy coll (λ o, computeValue o (groupBy expr)) compare))
           ((λ o, computeValue o (groupBy expr)) <$>
              last (sortBy coll (λ o, computeValue o (groupBy expr)) compare)))
        (sortBy coll (λ o, computeValue o (groupBy expr)) compare)].
Proof.
  intros Hn Hcoll Hplain Hnc. rewrite (bucketAuto_Ok _ _ _ 1 Hn) by (done || lia).
  f_equal. by apply buckets_of_one.
Qed.

(** X10: for an integer bucket count (or [true]), when the keys are plain
    and those that are not nil are all of one type (all numbers, all strings
    or all booleans), every document of the collection is in exactly one
    bucket. *)
Theorem bucketAuto_partition_same_type (coll : list Doc) (expr : BucketAutoSpec) :
  gt_zero (buckets expr) = true →
  plain_keys (groupBy expr) coll →
  (∀ x y, x ∈ coll → y ∈ coll →
     ¬ isNil (computeValue x (groupBy expr)) →
     ¬ isNil (computeValue y (groupBy expr)) →
     type_rank (computeValue x (groupBy expr)) =
     type_rank (computeValue y (groupBy expr))) →
  ∃ bs, bucketAuto coll expr = Ok bs ∧ concat (map bucketItems bs) ≡ₚ coll.
Proof.
  intros (n & Hn & Hpos)%gt_zero_true Hplain Hty.
  eexists. split; [by apply bucketAuto_Ok|].
  rewrite buckets_of_concat; [apply sortBy_Permutation|done|].
  by apply same_type_no_collision.
Qed.

(** X11: what the sort callback does, run on every document in input order.
    It throws a [TypeError] when the key of some document is not nil and
    names a property that [grouped] inherits.  Otherwise [remaining] holds
    the documents with a nil key, in input order, and the own property [s]
    of [grouped] holds the documents whose key is not nil and has the
    property string [s], in input order; [grouped] has no own property for a
    string that is the property string of no key. *)
Theorem sort_callback_records (groupByExpr : Expr) (coll : list Doc) :
  match record_keys computeValue groupByExpr (∅, []) coll with
  | Ok (grouped, remaining) =>
      (∀ o, o ∈ coll → ¬ isNil (computeValue o groupByExpr) →
         inherited (toPropertyKey (computeValue o groupByExpr)) = false) ∧
      remaining = filter (λ o, isNil (computeValue o groupByExpr)) coll ∧
      ∀ s, grouped !! s =
           match filter (λ o, ¬ isNil (computeValue o groupByExpr) ∧
                              toPropertyKey (computeValue o groupByExpr) = s) coll with
           | [] => None
           | l => Some l
           end
  | Throw e =>
      e = TypeError ∧
      ∃ o, o ∈ coll ∧ ¬ isNil (computeValue o groupByExpr) ∧
           inherited (toPropertyKey (computeValue o groupByExpr)) = true
  end.
Proof.
  destruct (own_keys_or_not computeValue groupByExpr coll) as [Hown|Hbad].
  - rewrite (record_keys_Ok _ _ _ _ Hown).
    pose proof (remaining_eq computeValue groupByExpr coll) as Hrem.
    pose proof (grouped_lookup computeValue groupByExpr coll) as Hgrp.
    destruct (foldl _ _ coll) as [grouped remaining]. simpl in *.
    split_and!; [exact Hown|exact Hrem|exact Hgrp].
  - by rewrite (record_keys_Throw _ _ coll (∅, [])).
Qed.

(** X12: the buckets do not depend on the order of the input, for an
    accepted bucket count and plain keys no two of which, when they differ,
    share a property string.  The same documents in another order give as
    many buckets; bucket by bucket the [min] is the same, the [max] compares
    equal, and the documents are the same, in some order. *)
Theorem bucketAuto_input_order (coll coll' : list Doc) (expr : BucketAutoSpec) :
  gt_zero (buckets expr) = true →
  plain_keys (groupBy expr) coll →
  no_collision computeValue (groupBy expr) coll →
  coll ≡ₚ coll' →
  ∃ bs bs', bucketAuto coll expr = Ok bs ∧ bucketAuto coll' expr = Ok bs' ∧
    Forall2 (λ b b', own_min (_id b) = own_min (_id b') ∧
                     compare (get_max (_id b)) (get_max (_id b')) = Eq ∧
                     bucketItems b ≡ₚ bucketItems b') bs bs'.
Proof.
  intros (n & Hn & Hpos)%gt_zero_true Hplain Hnc Hperm.
  eexists _, _. split_and!; [by apply bucketAuto_Ok| |by apply buckets_of_Permutation].
  apply bucketAuto_Ok_own; [done..|].
  intros o Ho. apply (plain_keys_own _ _ _ Hplain). by rewrite Hperm.
Qed.

(** X15: for an accepted bucket count and plain keys, colliding or not, the
    [min] of every bucket is the key of one of the documents of that bucket,
    [null] standing for a nil key. *)
Theorem bucketAuto_min_attained (coll : list Doc) (expr : BucketAutoSpec) :
  gt_zero (buckets expr) = true →
  plain_keys (groupBy expr) coll →
  ∃ bs, bucketAuto coll expr = Ok bs ∧
    ∀ b, b ∈ bs →
      ∃ d, d ∈ bucketItems b ∧
        own_min (_id b) = Some (norm_key computeValue (groupBy expr) d).
Proof.
  intros (n & Hn & Hpos)%gt_zero_true Hplain.
  eexists. split; [by apply bucketAuto_Ok|].
  unfold buckets_of. intros b (i & Hb)%list_elem_of_lookup_1.
  apply link_lookup in Hb as (m & items & Hseg%list_elem_of_lookup_2 & ->). simpl.
  apply (segments_min_attained computeValue (groupBy expr) coll (approx_of coll n)
           (approx_of_ne_0 coll n)) in Hseg as (d & Hd & ->).
  by exists d.
Qed.
End Further.

(** * The theorems at concrete inputs *)

Lemma docs_repeated_keys_no_collision :
  no_collision computeValue_field "$k"%string docs_repeated_keys.
Proof.
  intros x y Hx Hy _ _. unfold docs_repeated_keys in Hx, Hy.
  repeat (apply elem_of_cons in Hx as [->|Hx]);
    try (by apply not_elem_of_nil in Hx);
    repeat (apply elem_of_cons in Hy as [->|Hy]);
    try (by apply not_elem_of_nil in Hy); by vm_compute.
Qed.

Lemma docs_repeated_keys_same_type (x y : Document) :
  x ∈ docs_repeated_keys → y ∈ docs_repeated_keys →
  ¬ isNil (computeValue_field x "$k") → ¬ isNil (computeValue_field y "$k") →
  type_rank (computeValue_field x "$k") = type_rank (computeValue_field y "$k").
Proof.
  intros Hx Hy _ _. unfold docs_repeated_keys in Hx, Hy.
  repeat (apply elem_of_cons in Hx as [->|Hx]);
    try (by apply not_elem_of_nil in Hx);
    repeat (apply elem_of_cons in Hy as [->|Hy]);
    try (by apply not_elem_of_nil in Hy); by vm_compute.
Qed.

Lemma docs_1_to_4_no_k (d : Document) :
  d ∈ docs_1_to_4 → norm_key computeValue_field "$k"%string d = VNull.
Proof.
  intros Hd. unfold docs_1_to_4 in Hd. simpl in Hd.
  repeat (apply elem_of_cons in Hd as [->|Hd]);
    try (by apply not_elem_of_nil in Hd); by vm_compute.
Qed.

(** The stage on the keys ["a"] and ["constructor"]. *)
Example bucketAuto_constructor_key :
  bucketAuto computeValue_field docs_constructor (mkSpec "$k"%string (BNum 2))
  = Throw TypeError.
Proof. by vm_compute. Qed.

Lemma bucketAuto_no_empty_bucket_witness :
  gt_zero (BNum 10) = true ∧
  plain_keys computeValue_field "$_id"%string docs_1_to_6 ∧
  ∃ bs, bucketAuto computeValue_field docs_1_to_6 (mkSpec "$_id"%string (BNum 10)) = Ok bs ∧
    ∀ b, b ∈ bs → bucketItems b ≠ [] ∧ ∀ d, d ∈ bucketItems b → d ∈ docs_1_to_6.
Proof.
  split; [reflexivity|]. split; [reflexivity|].
  apply (bucketAuto_no_empty_bucket computeValue_field docs_1_to_6
           (mkSpec "$_id"%string (BNum 10)));
    reflexivity.
Defined.

Lemma bucketAuto_empty_collection_witness :
  gt_zero (BNum 3) = true ∧
  bucketAuto computeValue_field [] (mkSpec "$_id"%string (BNum 3)) = Ok [].
Proof.
  split; [reflexivity|].
  apply (bucketAuto_empty_collection computeValue_field (mkSpec "$_id"%string (BNum 3))).
  reflexivity.
Defined.

Lemma bucketAuto_boundaries_chain_witness :
  gt_zero (BNum 3) = true ∧
  plain_keys computeValue_field "$_id"%string docs_1_to_6 ∧
  ∃ bs, bucketAuto computeValue_field docs_1_to_6 (mkSpec "$_id"%string (BNum 3)) = Ok bs ∧
    (∀ b, b ∈ bs → is_Some (own_min (_id b)) ∧ is_Some (own_max (_id b))) ∧
    (∀ i b b', bs !! i = Some b → bs !! S i = Some b' →
       own_min (_id b') = own_max (_id b)) ∧
    (docs_1_to_6 ≠ [] →
     ∃ b o, last bs = Some b ∧ o ∈ docs_1_to_6 ∧
       own_max (_id b) = Some (computeValue_field o "$_id") ∧
       ∀ d, d ∈ docs_1_to_6 →
         compare (computeValue_field d "$_id") (computeValue_field o "$_id") ≠ Gt).
Proof.
  split; [reflexivity|]. split; [reflexivity|].
  apply (bucketAuto_boundaries_chain computeValue_field docs_1_to_6
           (mkSpec "$_id"%string (BNum 3)));
    reflexivity.
Defined.

Lemma bucketAuto_nil_keys_first_witness :
  gt_zero (BNum 2) = true ∧
  plain_keys computeValue_field "$k"%string docs_null_first ∧
  (∃ d, d ∈ docs_null_first ∧ isNil (computeValue_field d "$k")) ∧
  ∃ b rest more,
    bucketAuto computeValue_field docs_null_first (mkSpec "$k"%string (BNum 2))
      = Ok (b :: rest) ∧
    own_min (_id b) = Some VNull ∧
    bucketItems b = filter (λ d, isNil (computeValue_field d "$k")) docs_null_first ++ more ∧
    (∀ d, d ∈ more → ¬ isNil (computeValue_field d "$k")) ∧
    (∀ b' d, b' ∈ rest → d ∈ bucketItems b' → ¬ isNil (computeValue_field d "$k")).
Proof.
  assert (∃ d, d ∈ docs_null_first ∧ isNil (computeValue_field d "$k")) as Hnil.
  { exists [("k"%string, VNull)]. split; [left|exact I]. }
  split; [reflexivity|]. split; [reflexivity|]. split; [exact Hnil|].
  apply (bucketAuto_nil_keys_first computeValue_field docs_null_first
           (mkSpec "$k"%string (BNum 2)));
    [reflexivity|reflexivity|exact Hnil].
Defined.

Lemma bucketAuto_chunks_of_key_groups_witness :
  0 < 5 ∧
  plain_keys computeValue_field "$k"%string docs_repeated_keys ∧
  no_collision computeValue_field "$k"%string docs_repeated_keys ∧
  ∃ bs, bucketAuto computeValue_field docs_repeated_keys (mkSpec "$k"%string (BNum 5)) = Ok bs ∧
    map bucketItems bs =
    map (λ ks, concat (map (group computeValue_field "$k"%string docs_repeated_keys) ks))
      (chunk_keys (Z.to_nat 5)
         (Z.to_nat (Z.max 1 (Math_round_div (Z.of_nat (length docs_repeated_keys)) 5)))
         (distinct_keys computeValue_field "$k"%string
            (sortBy docs_repeated_keys (λ o, computeValue_field o "$k") compare))).
Proof.
  split; [lia|]. split; [reflexivity|].
  split; [exact docs_repeated_keys_no_collision|].
  apply (bucketAuto_chunks_of_key_groups computeValue_field docs_repeated_keys
           (mkSpec "$k"%string (BNum 5)) 5);
    [reflexivity|lia|reflexivity|exact docs_repeated_keys_no_collision].
Defined.


Lemma bucketAuto_bucket_count_bounds_witness :
  ToNumber (BNum 6) = Some 6 ∧ 0 < 6 ∧
  plain_keys computeValue_field "$k"%string docs_mixed_keys ∧
  ∃ bs, bucketAuto computeValue_field docs_mixed_keys (mkSpec "$k"%string (BNum 6)) = Ok bs ∧
    Z.of_nat (length bs) ≤ 6 ∧ (length bs ≤ length docs_mixed_keys)%nat.
Proof.
  split; [reflexivity|]. split; [lia|]. split; [reflexivity|].
  apply (bucketAuto_bucket_count_bounds computeValue_field docs_mixed_keys
           (mkSpec "$k"%string (BNum 6)) 6); [reflexivity|lia|reflexivity].
Defined.

Lemma bucketAuto_TypeError_iff_witness :
  gt_zero (BNum 2) = true ∧
  (bucketAuto computeValue_field docs_constructor (mkSpec "$k"%string (BNum 2))
     = Throw TypeError ↔
   ∃ d, d ∈ docs_constructor ∧ ¬ isNil (computeValue_field d "$k") ∧
        inherited (toPropertyKey (computeValue_field d "$k")) = true).
Proof.
  split; [reflexivity|].
  apply (bucketAuto_TypeError_iff computeValue_field docs_constructor
           (mkSpec "$k"%string (BNum 2))).
  reflexivity.
Defined.

Lemma bucketAuto_boundaries_ascend_witness :
  gt_zero (BNum 6) = true ∧
  plain_keys computeValue_field "$k"%string docs_mixed_keys ∧
  ∃ bs, bucketAuto computeValue_field docs_mixed_keys (mkSpec "$k"%string (BNum 6)) = Ok bs ∧
    (∀ i j b b', (i < j)%nat → bs !! i = Some b → bs !! j = Some b' →
       compare (get_min (_id b)) (get_min (_id b')) ≠ Gt) ∧
    (∀ b, b ∈ bs → compare (get_min (_id b)) (get_max (_id b)) ≠ Gt) ∧
    (∀ b d, head bs = Some b → d ∈ docs_mixed_keys →
       compare (get_min (_id b)) (computeValue_field d "$k") ≠ Gt).
Proof.
  split; [reflexivity|]. split; [reflexivity|].
  apply (bucketAuto_boundaries_ascend computeValue_field docs_mixed_keys
           (mkSpec "$k"%string (BNum 6)));
    reflexivity.
Defined.

Lemma bucketAuto_keys_within_boundaries_witness :
  gt_zero (BNum 3) = true ∧
  plain_keys computeValue_field "$k"%string docs_repeated_keys ∧
  no_collision computeValue_field "$k"%string docs_repeated_keys ∧
  ∃ bs, bucketAuto computeValue_field docs_repeated_keys (mkSpec "$k"%string (BNum 3)) = Ok bs ∧
    ∀ i b d, bs !! i = Some b → d ∈ bucketItems b →
      compare (get_min (_id b)) (computeValue_field d "$k") ≠ Gt ∧
      compare (computeValue_field d "$k") (get_max (_id b)) ≠ Gt ∧
      ((S i < length bs)%nat →
       compare (computeValue_field d "$k") (get_max (_id b)) = Lt).
Proof.
  split; [reflexivity|]. split; [reflexivity|].
  split; [exact docs_repeated_keys_no_collision|].
  apply (bucketAuto_keys_within_boundaries computeValue_field docs_repeated_keys
           (mkSpec "$k"%string (BNum 3)));
    [reflexivity|reflexivity|exact docs_repeated_keys_no_collision].
Defined.

Lemma bucketAuto_counts_add_up_witness :
  gt_zero (BNum 3) = true ∧
  plain_keys computeValue_field "$k"%string docs_repeated_keys ∧
  no_collision computeValue_field "$k"%string docs_repeated_keys ∧
  ∃ bs, bucketAuto computeValue_field docs_repeated_keys (mkSpec "$k"%string (BNum 3)) = Ok bs ∧
    total_count bs = Z.of_nat (length docs_repeated_keys).
Proof.
  split; [reflexivity|]. split; [reflexivity|].
  split; [exact docs_repeated_keys_no_collision|].
  apply (bucketAuto_counts_add_up computeValue_field docs_repeated_keys
           (mkSpec "$k"%string (BNum 3)));
    [reflexivity|reflexivity|exact docs_repeated_keys_no_collision].
Defined.

Lemma bucketAuto_single_key_witness :
  gt_zero (BNum 2) = true ∧ docs_1_to_4 ≠ [] ∧
  plain_keys computeValue_field "$k"%string docs_1_to_4 ∧
  (∀ d, d ∈ docs_1_to_4 → norm_key computeValue_field "$k"%string d = VNull) ∧
  bucketAuto computeValue_field docs_1_to_4 (mkSpec "$k"%string (BNum 2)) =
  Ok [mkBucket
        (mkBoundaries (Some VNull)
           ((λ o, computeValue_field o "$k") <$> last docs_1_to_4))
        docs_1_to_4].
Proof.
  split; [reflexivity|]. split; [discriminate|]. split; [reflexivity|].
  split; [exact docs_1_to_4_no_k|].
  apply (bucketAuto_single_key computeValue_field docs_1_to_4
           (mkSpec "$k"%string (BNum 2)) VNull);
    [reflexivity|discriminate|reflexivity|exact docs_1_to_4_no_k].
Defined.

Lemma bucketAuto_bucket_per_key_witness :
  ToNumber (BNum 7) = Some 7 ∧ 0 < 7 ∧ Z.of_nat (length docs_repeated_keys) ≤ 7 ∧
  plain_keys computeValue_field "$k"%string docs_repeated_keys ∧
  no_collision computeValue_field "$k"%string docs_repeated_keys ∧
  ∃ bs, bucketAuto computeValue_field docs_repeated_keys (mkSpec "$k"%string (BNum 7)) = Ok bs ∧
    map (λ b, (own_min (_id b), bucketItems b)) bs =
    map (λ k, (Some k, group computeValue_field "$k"%string docs_repeated_keys k))
      (distinct_keys computeValue_field "$k"%string
         (sortBy docs_repeated_keys (λ o, computeValue_field o "$k") compare)).
Proof.
  split; [reflexivity|]. split; [lia|]. split; [simpl; lia|].
  split; [reflexivity|]. split; [exact docs_repeated_keys_no_collision|].
  apply (bucketAuto_bucket_per_key computeValue_field docs_repeated_keys
           (mkSpec "$k"%string (BNum 7)) 7);
    [reflexivity|lia|simpl; lia|reflexivity|exact docs_repeated_keys_no_collision].
Defined.

Lemma bucketAuto_bucket_count_witness :
  ToNumber (BNum 3) = Some 3 ∧ 0 < 3 ∧
  plain_keys computeValue_field "$k"%string docs_repeated_keys ∧
  no_collision computeValue_field "$k"%string docs_repeated_keys ∧
  ∃ bs, bucketAuto computeValue_field docs_repeated_keys (mkSpec "$k"%string (BNum 3)) = Ok bs ∧
    length bs =
    Nat.min (Z.to_nat 3)
      ((length (distinct_keys computeValue_field "$k"%string
                  (sortBy docs_repeated_keys (λ o, computeValue_field o "$k") compare))
        + Z.to_nat (Z.max 1 (Math_round_div (Z.of_nat (length docs_repeated_keys)) 3)) - 1)
       / Z.to_nat (Z.max 1 (Math_round_div (Z.of_nat (length docs_repeated_keys)) 3))).
Proof.
  split; [reflexivity|]. split; [lia|]. split; [reflexivity|].
  split; [exact docs_repeated_keys_no_collision|].
  apply (bucketAuto_bucket_count computeValue_field docs_repeated_keys
           (mkSpec "$k"%string (BNum 3)) 3);
    [reflexivity|lia|reflexivity|exact docs_repeated_keys_no_collision].
Defined.

Lemma bucketAuto_one_bucket_witness :
  ToNumber (BBool true) = Some 1 ∧ docs_repeated_keys ≠ [] ∧
  plain_keys computeValue_field "$k"%string docs_repeated_keys ∧
  no_collision computeValue_field "$k"%string docs_repeated_keys ∧
  bucketAuto computeValue_field docs_repeated_keys (mkSpec "$k"%string (BBool true)) =
  Ok [mkBucket
        (mkBoundaries
           (norm_key computeValue_field "$k"%string <$>
              head (sortBy docs_repeated_keys (λ o, computeValue_field o "$k") compare))
           ((λ o, computeValue_field o "$k") <$>
              last (sortBy docs_repeated_keys (λ o, computeValue_field o "$k") compare)))
        (sortBy docs_repeated_keys (λ o, computeValue_field o "$k") compare)].
Proof.
  split; [reflexivity|]. split; [discriminate|]. split; [reflexivity|].
  split; [exact docs_repeated_keys_no_collision|].
  apply (bucketAuto_one_bucket computeValue_field docs_repeated_keys
           (mkSpec "$k"%string (BBool true)));
    [reflexivity|discriminate|reflexivity|exact docs_repeated_keys_no_collision].
Defined.

Lemma bucketAuto_partition_same_type_witness :
  gt_zero (BNum 3) = true ∧
  plain_keys computeValue_field "$k"%string docs_repeated_keys ∧
  (∀ x y, x ∈ docs_repeated_keys → y ∈ docs_repeated_keys →
     ¬ isNil (computeValue_field x "$k") → ¬ isNil (computeValue_field y "$k") →
     type_rank (computeValue_field x "$k") =
     type_rank (computeValue_field y "$k")) ∧
  ∃ bs, bucketAuto computeValue_field docs_repeated_keys (mkSpec "$k"%string (BNum 3)) = Ok bs ∧
    concat (map bucketItems bs) ≡ₚ docs_repeated_keys.
Proof.
  split; [reflexivity|]. split; [reflexivity|].
  split; [exact docs_repeated_keys_same_type|].
  apply (bucketAuto_partition_same_type computeValue_field docs_repeated_keys
           (mkSpec "$k"%string (BNum 3)));
    [reflexivity|reflexivity|exact docs_repeated_keys_same_type].
Defined.

Lemma bucketAuto_partition_no_collision_witness :
  buckets (mkSpec "$k"%string (BNum 3)) = BNum 3 ∧ 0 < 3 ∧
  plain_keys computeValue_field "$k"%string docs_repeated_keys ∧
  no_collision computeValue_field "$k"%string docs_repeated_keys ∧
  ∃ bs, bucketAuto computeValue_field docs_repeated_keys (mkSpec "$k"%string (BNum 3)) = Ok bs ∧
    concat (map bucketItems bs) =
      sorted_of computeValue_field "$k"%string docs_repeated_keys ∧
    concat (map bucketItems bs) ≡ₚ docs_repeated_keys.
Proof.
  split; [reflexivity|]. split; [lia|]. split; [reflexivity|].
  split; [exact docs_repeated_keys_no_collision|].
  apply (bucketAuto_partition_no_collision computeValue_field docs_repeated_keys
           (mkSpec "$k"%string (BNum 3)) 3);
    [reflexivity|lia|reflexivity|exact docs_repeated_keys_no_collision].
Defined.

Lemma bucketAuto_equal_keys_no_collision_witness :
  buckets (mkSpec "$k"%string (BNum 3)) = BNum 3 ∧ 0 < 3 ∧
  plain_keys computeValue_field "$k"%string docs_repeated_keys ∧
  no_collision computeValue_field "$k"%string docs_repeated_keys ∧
  ∃ bs, bucketAuto computeValue_field docs_repeated_keys (mkSpec "$k"%string (BNum 3)) = Ok bs ∧
    ∀ i j b b' x y,
      bs !! i = Some b → bs !! j = Some b' →
      x ∈ bucketItems b → y ∈ bucketItems b' →
      norm_key computeValue_field "$k"%string x =
      norm_key computeValue_field "$k"%string y →
      i = j.
Proof.
  split; [reflexivity|]. split; [lia|]. split; [reflexivity|].
  split; [exact docs_repeated_keys_no_collision|].
  apply (bucketAuto_equal_keys_no_collision computeValue_field docs_repeated_keys
           (mkSpec "$k"%string (BNum 3)) 3);
    [reflexivity|lia|reflexivity|exact docs_repeated_keys_no_collision].
Defined.

Lemma bucketAuto_input_order_witness :
  gt_zero (BNum 3) = true ∧
  plain_keys computeValue_field "$k"%string docs_repeated_keys ∧
  no_collision computeValue_field "$k"%string docs_repeated_keys ∧
  docs_repeated_keys ≡ₚ reverse docs_repeated_keys ∧
  ∃ bs bs',
    bucketAuto computeValue_field docs_repeated_keys (mkSpec "$k"%string (BNum 3)) = Ok bs ∧
    bucketAuto computeValue_field (reverse docs_repeated_keys) (mkSpec "$k"%string (BNum 3))
      = Ok bs' ∧
    Forall2 (λ b b', own_min (_id b) = own_min (_id b') ∧
                     compare (get_max (_id b)) (get_max (_id b')) = Eq ∧
                     bucketItems b ≡ₚ bucketItems b') bs bs'.
Proof.
  split; [reflexivity|]. split; [reflexivity|].
  split; [exact docs_repeated_keys_no_collision|].
  split; [symmetry; apply reverse_Permutation|].
  apply (bucketAuto_input_order computeValue_field docs_repeated_keys
           (reverse docs_repeated_keys) (mkSpec "$k"%string (BNum 3)));
    [reflexivity|reflexivity|exact docs_repeated_keys_no_collision
    |symmetry; apply reverse_Permutation].
Defined.

Lemma bucketAuto_min_attained_witness :
  gt_zero (BNum 2) = true ∧
  plain_keys computeValue_field "$k"%string docs_mixed_keys ∧
  ∃ bs, bucketAuto computeValue_field docs_mixed_keys (mkSpec "$k"%string (BNum 2)) = Ok bs ∧
    ∀ b, b ∈ bs →
      ∃ d, d ∈ bucketItems b ∧
        own_min (_id b) = Some (norm_key computeValue_field "$k"%string d).
Proof.
  split; [reflexivity|]. split; [reflexivity|].
  apply (bucketAuto_min_attained computeValue_field docs_mixed_keys
           (mkSpec "$k"%string (BNum 2)));
    reflexivity.
Defined.
